(** * League table widget (widget.js): model and verified properties

    A shallow embedding of [widget.js].  The widget is an event-driven
    script: every handler runs to completion on the single UI thread, so a
    handler is a function from the widget state to a completion (normal, or
    an uncaught [TypeError]).

    Modelling choices, all taken from the source:
    - the module-level [let] variables are the fields of [State];
    - row objects and arrays live in a [Heap] and are referred to by
      location, because [renderLeague] copies rows ([{...x}]), sorts an
      array in place and writes [position] into objects;
    - [standingsByLeague] is a JavaScript object used as a map: an
      association list kept in own-property order;
    - numeric statistics are integers ([Z]); an absent, [undefined] or
      [null] field is [None];
    - a message payload is an object whose properties are read at the
      types of the message contract: a league id is a string, standings
      are an array of rows, [standingsByLeague] maps ids to such arrays;
    - [String.prototype.localeCompare], whose result depends on the
      browser's locale data, is a parameter of the development;
    - the Tabulator grid, the [<select>] element and [window.parent] are
      modelled by what the script does to them: the rows handed to
      [setData], the options and value of the select, and a trace of
      effects. *)

From Stdlib Require Import ZArith Ascii String List Sorted Permutation Lia Bool.
From stdpp Require Import base option list strings.

Local Open Scope string_scope.

(** ** Data model *)

(** A [TeamRow] as the code reads it.  Every property is optional. *)
Record Row := mkRow {
  equipeName   : option string;
  points       : option Z;
  victoires    : option Z;
  defaites     : option Z;
  nuls         : option Z;
  forfaits     : option Z;
  butsPour     : option Z;
  butsContre   : option Z;
  differentiel : option Z;
  teamUrl      : option string;
  position     : option Z
}.

(** The object literal [{}]. *)
Definition emptyRow : Row :=
  mkRow None None None None None None None None None None None.

(** [r.position = p] *)
Definition set_position (p : Z) (r : Row) : Row :=
  mkRow (equipeName r) (points r) (victoires r) (defaites r) (nuls r)
        (forfaits r) (butsPour r) (butsContre r) (differentiel r)
        (teamUrl r) (Some p).


(** A league entry of the selector: [{ id, name }], with the alternative
    labels [div] and [label] that [populateLeagueDropdown] also reads. *)
Record League := mkLeague {
  id    : string;
  name  : option string;
  div   : option string;
  label : option string
}.

(** ** JavaScript objects used as maps

    Own string keys enumerate with the array indices first, in ascending
    numeric order, and the other keys after them in insertion order.  The
    association list is kept in that order, so [Object.keys] is [map fst]. *)

Definition jsobj (V : Type) : Type := list (string * V).

Definition digit_of (c : ascii) : option N :=
  let n := N_of_ascii c in
  if ((48 <=? n) && (n <=? 57))%N then Some (n - 48)%N else None.

Fixpoint parse_digits (s : string) (acc : N) : option N :=
  match s with
  | EmptyString => Some acc
  | String c s' =>
      match digit_of c with
      | Some d => parse_digits s' (10 * acc + d)%N
      | None => None
      end
  end.

(** The canonical numeric strings below 2^32 - 1. *)
Definition array_index (k : string) : option N :=
  match k with
  | EmptyString => None
  | String c s' =>
      if Ascii.eqb c "0"%char
      then (if String.eqb s' "" then Some 0%N else None)
      else match parse_digits k 0 with
           | Some n => if (n <? 4294967295)%N then Some n else None
           | None => None
           end
  end.

Section JsObj.
Context {V : Type}.

(** [o[k]] *)
Fixpoint obj_get (k : string) (o : jsobj V) : option V :=
  match o with
  | [] => None
  | (k', v) :: o' => if String.eqb k' k then Some v else obj_get k o'
  end.

Definition obj_has (k : string) (o : jsobj V) : bool :=
  match obj_get k o with Some _ => true | None => false end.

(** Overwrite the value of an existing key, keeping its place. *)
Fixpoint obj_replace (k : string) (v : V) (o : jsobj V) : jsobj V :=
  match o with
  | [] => []
  | (k', v') :: o' =>
      if String.eqb k' k then (k', v) :: o' else (k', v') :: obj_replace k v o'
  end.

(** Create the array-index key [k] (numeric value [n]): it goes before the
    first key that is not an index or is a larger index. *)
Fixpoint obj_add_index (n : N) (k : string) (v : V) (o : jsobj V) : jsobj V :=
  match o with
  | [] => [(k, v)]
  | (k', v') :: o' =>
      match array_index k' with
      | Some n' =>
          if (n' <? n)%N then (k', v') :: obj_add_index n k v o'
          else (k, v) :: o
      | None => (k, v) :: o
      end
  end.

(** [o[k] = v] *)
Definition obj_set (k : string) (v : V) (o : jsobj V) : jsobj V :=
  if obj_has k o then obj_replace k v o
  else match array_index k with
       | Some n => obj_add_index n k v o
       | None => (o ++ [(k, v)])%list
       end.

(** [Object.keys(o)] *)
Definition Object_keys (o : jsobj V) : list string := map fst o.
End JsObj.

(** ** The heap of row objects and arrays *)

Record Heap := mkHeap {
  objs : list Row;          (* row objects, by location *)
  arrs : list (list nat)    (* arrays of row references, by location *)
}.

Definition read_obj (h : Heap) (l : nat) : Row := default emptyRow (objs h !! l).
Definition read_arr (h : Heap) (a : nat) : list nat := default [] (arrs h !! a).

Definition write_obj (l : nat) (r : Row) (h : Heap) : Heap :=
  mkHeap (<[l := r]> (objs h)) (arrs h).
Definition write_arr (a : nat) (ls : list nat) (h : Heap) : Heap :=
  mkHeap (objs h) (<[a := ls]> (arrs h)).

(** A fresh object, and a fresh array. *)
Definition alloc_obj (r : Row) (h : Heap) : Heap * nat :=
  (mkHeap (objs h ++ [r])%list (arrs h), length (objs h)).
Definition alloc_arr (ls : list nat) (h : Heap) : Heap * nat :=
  (mkHeap (objs h) (arrs h ++ [ls])%list, length (arrs h)).

(** The rows an array holds, read through the heap. *)
Definition rows_of (h : Heap) (a : nat) : list Row :=
  map (read_obj h) (read_arr h a).

(** [src.map(x => ({ ...x }))], before the result array is allocated: one
    fresh object per element, each a copy of the element's properties. *)
Fixpoint copy_each (src : list nat) (h : Heap) : Heap * list nat :=
  match src with
  | [] => (h, [])
  | x :: xs =>
      let '(h1, c) := alloc_obj (read_obj h x) h in
      let '(h2, cs) := copy_each xs h1 in
      (h2, c :: cs)
  end.

(** Row values entering the heap as new objects in a new array: what a
    message's structured clone, or an array literal of object literals,
    produces. *)
Fixpoint new_objs (rs : list Row) (h : Heap) : Heap * list nat :=
  match rs with
  | [] => (h, [])
  | r :: rs' =>
      let '(h1, l) := alloc_obj r h in
      let '(h2, ls) := new_objs rs' h1 in
      (h2, l :: ls)
  end.

Definition new_array (rs : list Row) (h : Heap) : Heap * nat :=
  let '(h1, ls) := new_objs rs h in alloc_arr ls h1.

(** A whole id-to-rows object entering the heap. *)
Fixpoint new_standings (m : jsobj (list Row)) (h : Heap) : Heap * jsobj nat :=
  match m with
  | [] => (h, [])
  | (k, rs) :: m' =>
      let '(h1, a) := new_array rs h in
      let '(h2, o) := new_standings m' h1 in
      (h2, (k, a) :: o)
  end.

(** ** [Array.prototype.sort]

    The language requires the sort to be stable; for a consistent
    comparator the result is then determined ([array_sort_unique] below),
    and it is the one this insertion sort computes: [x] is placed before
    the first later element that does not compare below it. *)

Section ArraySort.
Context {A : Type} (cmp : A -> A -> Z).

Fixpoint sort_insert (x : A) (l : list A) : list A :=
  match l with
  | [] => [x]
  | y :: l' => if (cmp x y <=? 0)%Z then x :: l else y :: sort_insert x l'
  end.

Definition array_sort (l : list A) : list A := foldr sort_insert [] l.

(** [x] may stand before [y] under the comparator. *)
Definition cmp_le (x y : A) : Prop := (cmp x y <= 0)%Z.

(** [x] and [y] rank the same: each may stand before the other. *)
Definition same_rank (x y : A) : bool :=
  ((cmp x y <=? 0) && (cmp y x <=? 0))%Z.
End ArraySort.

(** ** Ranking *)

(** [x ?? 0] *)
Definition nullish0 (x : option Z) : Z := default 0%Z x.

(** [x || y] on numbers: the first operand unless it is zero. *)
Definition js_or (x y : Z) : Z := if (x =? 0)%Z then y else x.

(** [String(r.equipeName || "")] *)
Definition nameKey (r : Row) : string := default "" (equipeName r).

(** ** Escaping and the team cell *)

(** The double-quote character. *)
Definition dquote : ascii := ascii_of_nat 34.
Definition dq : string := String dquote EmptyString.

(** The replacement function of [escapeHtml]: the entity of each of the five
    characters its pattern matches: ampersand, less-than, greater-than,
    double quote and apostrophe. *)
Definition html_entity (c : ascii) : string :=
  if Ascii.eqb c "&"%char then "&amp;"
  else if Ascii.eqb c "<"%char then "&lt;"
  else if Ascii.eqb c ">"%char then "&gt;"
  else if Ascii.eqb c dquote then "&quot;"
  else if Ascii.eqb c "'"%char then "&#39;"
  else String c EmptyString.

Fixpoint escapeHtml (s : string) : string :=
  match s with
  | EmptyString => EmptyString
  | String c s' => html_entity c ++ escapeHtml s'
  end.

Fixpoint escapeAttr (s : string) : string :=
  match s with
  | EmptyString => EmptyString
  | String c s' =>
      (if Ascii.eqb c dquote then "&quot;" else String c EmptyString)
      ++ escapeAttr s'
  end.

(** Truthiness of an optional string property: present and not empty. *)
Definition truthy (o : option string) : bool :=
  match o with
  | Some s => negb (String.eqb s "")
  | None => false
  end.


(** ** Messages *)

(** A property value of a message payload, read at the type the message
    contract gives the property. *)
Inductive PropValue :=
  | PString (s : string)
  | PLeagues (ls : list League)
  | PRows (rs : list Row)
  | PStandings (m : jsobj (list Row))
  | POther.

(** A payload object: its own properties in enumeration order. *)
Definition Payload : Type := jsobj PropValue.

(** [event.data]: the [type] and [payload] properties the handler
    destructures. *)
Record EventData := mkEventData {
  type    : option string;
  payload : option Payload
}.

(** The payload of the outbound [TEAM_CLICK] message. *)
Record TeamClick := mkTeamClick {
  tc_leagueId   : option string;
  tc_equipeName : option string;
  tc_url        : string
}.

(** A league object seen as a row: it has none of the row properties. *)
Definition league_as_row (_ : League) : Row := emptyRow.

(** [Array.isArray(v)], with the elements read as rows. *)
Definition as_array (v : PropValue) : option (list Row) :=
  match v with
  | PRows rs => Some rs
  | PLeagues ls => Some (map league_as_row ls)
  | _ => None
  end.

(** [fallbackShape(obj)]: the array-valued properties of [obj]. *)
Definition fallbackShape (obj : Payload) : jsobj (list Row) :=
  fold_left
    (fun out kv => match as_array (snd kv) with
                   | Some rs => obj_set (fst kv) rs out
                   | None => out
                   end)
    obj [].

(** [keysToLeagues(obj)] *)
Definition keysToLeagues {V} (obj : jsobj V) : list League :=
  map (fun k => mkLeague k (Some k) None None) (Object_keys obj).

(** [payload.leagues || []] *)
Definition payload_leagues (p : Payload) : list League :=
  match obj_get "leagues" p with
  | Some (PLeagues ls) => ls
  | _ => []
  end.

(** [payload.standingsByLeague || fallbackShape(payload)] *)
Definition payload_standings (p : Payload) : jsobj (list Row) :=
  match obj_get "standingsByLeague" p with
  | Some (PStandings m) => m
  | _ => fallbackShape p
  end.

(** ** Widget state *)

Inductive Layout := fitColumns | fitData.

(** The Tabulator instance: its layout option and the row objects it was
    last given. *)
Record Table := mkTable {
  tb_layout : Layout;
  tb_data   : list nat
}.

(** The [<select id="leagueSelect">] element. *)
Record Select := mkSelect {
  sel_options : list (string * string);   (* value, text *)
  sel_value   : string
}.

(** Callbacks handed to [requestAnimationFrame] and [setTimeout]. *)
Inductive Task :=
  | RetryRender (leagueId : string)
  | BootstrapSample.

Inductive Effect :=
  | SetData (rows : list nat)        (* table.setData(rows) *)
  | Redraw                           (* table.redraw(true) *)
  | PostMessage (m : TeamClick)      (* window.parent.postMessage(..., "*") *)
  | RequestAnimationFrame (t : Task)
  | SetTimeout (t : Task) (ms : Z)
  | ListenResize                     (* window.addEventListener("resize", ...) *)
  | ObserveBody.                     (* new ResizeObserver(...).observe(body) *)

Record State := mkState {
  table             : option Table;
  currentLayout     : option Layout;
  activeLeagueId    : option string;
  standingsByLeague : jsobj nat;
  leagues           : list League;
  domReady          : bool;
  pendingPayload    : option Payload;
  initReceived      : bool;
  heap              : Heap;
  leagueSelect      : option Select;   (* None: the element is missing *)
  wideViewport      : bool;            (* matchMedia("(min-width: 900px)") *)
  trace             : list Effect      (* effects so far, oldest first *)
}.

Definition set_table (v : option Table) (s : State) : State :=
  mkState v (currentLayout s) (activeLeagueId s) (standingsByLeague s)
    (leagues s) (domReady s) (pendingPayload s) (initReceived s) (heap s)
    (leagueSelect s) (wideViewport s) (trace s).
Definition set_currentLayout (v : option Layout) (s : State) : State :=
  mkState (table s) v (activeLeagueId s) (standingsByLeague s)
    (leagues s) (domReady s) (pendingPayload s) (initReceived s) (heap s)
    (leagueSelect s) (wideViewport s) (trace s).
Definition set_activeLeagueId (v : option string) (s : State) : State :=
  mkState (table s) (currentLayout s) v (standingsByLeague s)
    (leagues s) (domReady s) (pendingPayload s) (initReceived s) (heap s)
    (leagueSelect s) (wideViewport s) (trace s).
Definition set_standingsByLeague (v : jsobj nat) (s : State) : State :=
  mkState (table s) (currentLayout s) (activeLeagueId s) v
    (leagues s) (domReady s) (pendingPayload s) (initReceived s) (heap s)
    (leagueSelect s) (wideViewport s) (trace s).
Definition set_leagues (v : list League) (s : State) : State :=
  mkState (table s) (currentLayout s) (activeLeagueId s) (standingsByLeague s)
    v (domReady s) (pendingPayload s) (initReceived s) (heap s)
    (leagueSelect s) (wideViewport s) (trace s).
Definition set_domReady (v : bool) (s : State) : State :=
  mkState (table s) (currentLayout s) (activeLeagueId s) (standingsByLeague s)
    (leagues s) v (pendingPayload s) (initReceived s) (heap s)
    (leagueSelect s) (wideViewport s) (trace s).
Definition set_pendingPayload (v : option Payload) (s : State) : State :=
  mkState (table s) (currentLayout s) (activeLeagueId s) (standingsByLeague s)
    (leagues s) (domReady s) v (initReceived s) (heap s)
    (leagueSelect s) (wideViewport s) (trace s).
Definition set_initReceived (v : bool) (s : State) : State :=
  mkState (table s) (currentLayout s) (activeLeagueId s) (standingsByLeague s)
    (leagues s) (domReady s) (pendingPayload s) v (heap s)
    (leagueSelect s) (wideViewport s) (trace s).
Definition set_heap (v : Heap) (s : State) : State :=
  mkState (table s) (currentLayout s) (activeLeagueId s) (standingsByLeague s)
    (leagues s) (domReady s) (pendingPayload s) (initReceived s) v
    (leagueSelect s) (wideViewport s) (trace s).
Definition set_leagueSelect (v : option Select) (s : State) : State :=
  mkState (table s) (currentLayout s) (activeLeagueId s) (standingsByLeague s)
    (leagues s) (domReady s) (pendingPayload s) (initReceived s) (heap s)
    v (wideViewport s) (trace s).
Definition set_wideViewport (v : bool) (s : State) : State :=
  mkState (table s) (currentLayout s) (activeLeagueId s) (standingsByLeague s)
    (leagues s) (domReady s) (pendingPayload s) (initReceived s) (heap s)
    (leagueSelect s) v (trace s).
Definition emit (e : Effect) (s : State) : State :=
  mkState (table s) (currentLayout s) (activeLeagueId s) (standingsByLeague s)
    (leagues s) (domReady s) (pendingPayload s) (initReceived s) (heap s)
    (leagueSelect s) (wideViewport s) (trace s ++ [e])%list.

(** How a handler ends: normally, or with an uncaught [TypeError]; either
    way with the state it reached. *)
Inductive Completion :=
  | Normal (s : State)
  | TypeError (s : State).

Definition andThen (c : Completion) (k : State -> Completion) : Completion :=
  match c with
  | Normal s => k s
  | TypeError s => TypeError s
  end.

Definition state_of (c : Completion) : State :=
  match c with Normal s => s | TypeError s => s end.

(** The module's initial state, given the page it is loaded in. *)
Definition initial (sel : option Select) (wide : bool) : State :=
  mkState None None None [] [] false None false (mkHeap [] []) sel wide [].

(** [SAMPLE_PAYLOAD] *)
Definition sampleRow (n : string) (pts v d bp bc df : Z) (url : string) : Row :=
  mkRow (Some n) (Some pts) (Some v) (Some d) (Some 0%Z) (Some 0%Z)
        (Some bp) (Some bc) (Some df) (Some url) None.

Definition SAMPLE_PAYLOAD : Payload :=
  [ ("leagues", PLeagues [mkLeague "Tr1" (Some "Club Tomohawk") None None]);
    ("standingsByLeague", PStandings
       [ ("Tr1",
          [ sampleRow "CHAKS" 12 4 0 16 2 14 "/terrain1-chaks";
            sampleRow "Kelb United" 9 3 1 12 6 6 "/terrain1-kelb-united";
            sampleRow "Leaf" 9 3 1 10 5 5 "/terrain1-leaf";
            sampleRow "Northside" 6 2 2 8 8 0 "/terrain1-northside";
            mkRow (Some "Royal Academy") (Some 3%Z) (Some 1%Z) (Some 3%Z)
                  (Some 0%Z) (Some 1%Z) (Some 5%Z) (Some 12%Z) (Some (-7)%Z)
                  (Some "/terrain1-royal-academy") None ]) ]) ].

Section Widget.

(** [a.localeCompare(b)]: negative, zero or positive. *)
Variable localeCompare : string -> string -> Z.

(** The comparator passed to [rows.sort] in [renderLeague]. *)
Definition compareRows (a b : Row) : Z :=
  js_or (nullish0 (points b) - nullish0 (points a))
  (js_or (nullish0 (differentiel b) - nullish0 (differentiel a))
  (js_or (nullish0 (butsPour b) - nullish0 (butsPour a))
  (js_or (nullish0 (victoires b) - nullish0 (victoires a))
         (localeCompare (nameKey a) (nameKey b)))))%Z.

(** [rows.forEach((r, i) => r.position = i + 1)], from index [i] on. *)
Fixpoint assign_positions (ls : list nat) (i : nat) (h : Heap) : Heap :=
  match ls with
  | [] => h
  | r :: rs =>
      assign_positions rs (S i)
        (write_obj r (set_position (Z.of_nat i + 1) (read_obj h r)) h)
  end.


(** *** Table setup *)

(** [getLayout()] *)
Definition getLayout (s : State) : Layout :=
  if wideViewport s then fitColumns else fitData.

(** [initTable()] *)
Definition initTable (s : State) : State :=
  let initialLayout := getLayout s in
  let s := set_currentLayout (Some initialLayout) s in
  let s := set_table (Some (mkTable initialLayout [])) s in
  emit ObserveBody (emit ListenResize s).

(** The [onResize] closure of [initTable], once the debounce lets it run. *)
Definition onResize (s : State) : State :=
  let next := getLayout s in
  match table s, currentLayout s with
  | Some t, Some cur =>
      match next, cur with
      | fitColumns, fitColumns | fitData, fitData => s
      | _, _ =>
          emit Redraw
            (set_currentLayout (Some next)
               (set_table (Some (mkTable next (tb_data t))) s))
      end
  | Some t, None =>
      emit Redraw
        (set_currentLayout (Some next)
           (set_table (Some (mkTable next (tb_data t))) s))
  | None, _ => s
  end.

(** *** Rendering *)

(** The ranked copy that [renderLeague] builds from the stored array
    [src]: shallow copies of the rows in a new array, sorted in place, each
    copy then given its position.  Returns the heap and the elements of the
    new array. *)
Definition ranked_copy (src : list nat) (h : Heap) : Heap * list nat :=
  (* const rows = src.map(x => ({ ...x })) *)
  let '(h1, copies) := copy_each src h in
  let '(h2, rows) := alloc_arr copies h1 in
  (* rows.sort((a, b) => ...) *)
  let h3 := write_arr rows
              (array_sort (fun a b => compareRows (read_obj h2 a) (read_obj h2 b))
                          (read_arr h2 rows)) h2 in
  (* rows.forEach((r, i) => r.position = i + 1) *)
  let h4 := assign_positions (read_arr h3 rows) 0 h3 in
  (h4, read_arr h4 rows).

(** The elements of [standingsByLeague[leagueId] || []]. *)
Definition stored_refs (s : State) (leagueId : string) : list nat :=
  match obj_get leagueId (standingsByLeague s) with
  | Some a => read_arr (heap s) a
  | None => []
  end.

(** [renderLeague(leagueId)].  The redraw runs when the promise of
    [setData] resolves; the trace records it right after the [setData]. *)
Definition renderLeague (leagueId : string) (s : State) : State :=
  let s := set_activeLeagueId (Some leagueId) s in
  let src := stored_refs s leagueId in
  let '(h, rows) := ranked_copy src (heap s) in
  let s := set_heap h s in
  (* if (!table) initTable() *)
  let s := match table s with None => initTable s | Some _ => s end in
  (* table.setData(rows).then(() => table.redraw(true)) *)
  let s := match table s with
           | Some t => set_table (Some (mkTable (tb_layout t) rows)) s
           | None => s
           end in
  emit Redraw (emit (SetData rows) s).

(** The rows the grid shows: the objects it was given, read now. *)
Definition displayed (s : State) : list Row :=
  match table s with
  | Some t => map (read_obj (heap s)) (tb_data t)
  | None => []
  end.

(** The rows stored for a league, read now; [None] when the league has no
    entry. *)
Definition stored (s : State) (leagueId : string) : option (list Row) :=
  match obj_get leagueId (standingsByLeague s) with
  | Some a => Some (rows_of (heap s) a)
  | None => None
  end.

(** How many times [setData] was called. *)
Definition renders (s : State) : nat :=
  length (List.filter (fun e => match e with SetData _ => true | _ => false end)
                 (trace s)).

(** *** Initialisation *)

(** [a || b] on an optional string and a string. *)
Definition str_or (a : option string) (b : string) : string :=
  match a with
  | Some x => if String.eqb x "" then b else x
  | None => b
  end.

(** [populateLeagueDropdown(items)] *)
Definition populateLeagueDropdown (items : list League) (s : State) : State :=
  match leagueSelect s with
  | None => s
  | Some _ =>
      let opts := map (fun opt =>
                         (id opt,
                          str_or (name opt) (str_or (div opt)
                                   (str_or (label opt) (id opt))))) items in
      let v := match items with
               | [] => ""
               | i :: _ => id i
               end in
      set_leagueSelect (Some (mkSelect opts v)) s
  end.

(** [sel.value = v]: selects the first option with that value, none if
    there is no such option. *)
Definition select_set_value (v : string) (sel : Select) : Select :=
  mkSelect (sel_options sel)
    (if existsb (fun o => String.eqb (fst o) v) (sel_options sel) then v else "").

(** [scheduleInitialRender(leagueId)] *)
Definition scheduleInitialRender (leagueId : string) (s : State) : State :=
  let s := set_activeLeagueId (Some leagueId) s in
  let s := renderLeague leagueId s in
  let s := emit (RequestAnimationFrame (RetryRender leagueId)) s in
  emit (SetTimeout (RetryRender leagueId) 60) s.

(** [processInitPayload(payload)].  Reading [payload.leagues] of a missing
    payload throws. *)
Definition processInitPayload (payload : option Payload) (s : State)
  : Completion :=
  match payload with
  | None => TypeError s
  | Some p =>
      let s := set_leagues (payload_leagues p) s in
      let '(h, sb) := new_standings (payload_standings p) (heap s) in
      let s := set_standingsByLeague sb (set_heap h s) in
      let items := match leagues s with
                   | [] => keysToLeagues (standingsByLeague s)
                   | _ :: _ => leagues s
                   end in
      let s := populateLeagueDropdown items s in
      match items with
      | [] => Normal s
      | first :: _ =>
          let firstId := id first in
          let s := match leagueSelect s with
                   | Some sel =>
                       set_leagueSelect (Some (select_set_value firstId sel)) s
                   | None => s
                   end in
          Normal (scheduleInitialRender firstId s)
      end
  end.

(** *** Scheduled callbacks *)

(** The callback of the 250 ms timer set at DOM-ready. *)
Definition bootstrapTimer (s : State) : Completion :=
  if negb (initReceived s)
     && (length (Object_keys (standingsByLeague s)) =? 0)%nat
  then processInitPayload (Some SAMPLE_PAYLOAD) s
  else Normal s.

(** The callback [scheduleInitialRender] hands to [requestAnimationFrame]
    and to [setTimeout]. *)
Definition retryRender (leagueId : string) (s : State) : State :=
  match activeLeagueId s with
  | Some a => if String.eqb a leagueId then renderLeague leagueId s else s
  | None => s
  end.

Definition runTask (t : Task) (s : State) : Completion :=
  match t with
  | RetryRender leagueId => Normal (retryRender leagueId s)
  | BootstrapSample => bootstrapTimer s
  end.

(** *** Event handlers *)

(** The [DOMContentLoaded] listener. *)
Definition onDOMContentLoaded (s : State) : Completion :=
  let s := set_domReady true s in
  andThen
    (match pendingPayload s with
     | Some p =>
         andThen (processInitPayload (Some p) s)
                 (fun s => Normal (set_pendingPayload None s))
     | None => Normal s
     end)
    (fun s => Normal (emit (SetTimeout BootstrapSample 250) s)).

(** The [change] listener of the selector, after the user picked [v]. *)
Definition onSelectChange (v : string) (s : State) : State :=
  match leagueSelect s with
  | Some sel =>
      let sel := select_set_value v sel in
      renderLeague (sel_value sel) (set_leagueSelect (Some sel) s)
  | None => s
  end.

(** [standingsByLeague[leagueId] = standings], the array being one that
    arrived with a message. *)
Definition store_standings (leagueId : string) (rows : list Row) (s : State)
  : State :=
  let '(h, a) := new_array rows (heap s) in
  set_standingsByLeague (obj_set leagueId a (standingsByLeague s)) (set_heap h s).

(** The [UPDATE_TABLE] branch of [onMessageFromHost]. *)
Definition updateTable (payload : option Payload) (s : State) : State :=
  match payload with
  | Some p =>
      (* payload?.leagueId && Array.isArray(payload.standings) *)
      match obj_get "leagueId" p, obj_get "standings" p with
      | Some (PString leagueId), Some v =>
          match truthy (Some leagueId), as_array v with
          | true, Some rows =>
              let s := store_standings leagueId rows s in
              match activeLeagueId s with
              | Some act =>
                  if String.eqb act leagueId then renderLeague act s else s
              | None => s
              end
          | _, _ => s
          end
      | _, _ => s
      end
  | None => s
  end.

(** [onMessageFromHost(event)], on [event.data]. *)
Definition onMessageFromHost (data : option EventData) (s : State)
  : Completion :=
  let '(type, payload) := match data with
                          | Some d => (type d, payload d)
                          | None => (None, None)
                          end in
  if negb (truthy type) then Normal s
  else
    let type := default "" type in
    let update s :=
      if String.eqb type "UPDATE_TABLE"
      then Normal (updateTable payload s)
      else Normal s in
    if String.eqb type "INIT_WIDGET" then
      let s := set_initReceived true s in
      if negb (domReady s)
      then Normal (set_pendingPayload payload s)
      else andThen (processInitPayload payload s) update
    else update s.

(** The [cellClick] handler of the team column, on the clicked row's data. *)
Definition cellClick (data : Row) (s : State) : State :=
  if truthy (teamUrl data)
  then emit (PostMessage (mkTeamClick (activeLeagueId s) (equipeName data)
                                      (default "" (teamUrl data)))) s
  else s.

(** The messages posted to the parent so far. *)
Definition posted (s : State) : list TeamClick :=
  omap (fun e => match e with PostMessage m => Some m | _ => None end) (trace s).

(** The [ResizeObserver] callback installed by [initTable]. *)
Definition onBodyResize (s : State) : State :=
  match table s with
  | Some _ => emit Redraw s
  | None => s
  end.

(** *** The event loop *)

Inductive Event :=
  | Message (data : option EventData)
  | DOMContentLoaded
  | SelectChange (v : string)
  | Timer (t : Task)
  | CellClick (data : Row)
  | Resize (wide : bool)     (* the viewport now is, or is not, 900px wide *)
  | BodyResize.

Definition handle (e : Event) (s : State) : Completion :=
  match e with
  | Message data => onMessageFromHost data s
  | DOMContentLoaded => onDOMContentLoaded s
  | SelectChange v => Normal (onSelectChange v s)
  | Timer t => runTask t s
  | CellClick data => Normal (cellClick data s)
  | Resize wide => Normal (onResize (set_wideViewport wide s))
  | BodyResize => Normal (onBodyResize s)
  end.

(** Running a sequence of events; an uncaught error ends one handler, not
    the page, so the next event starts from the state the handler reached. *)
Definition run (es : list Event) (s : State) : State :=
  fold_left (fun s e => state_of (handle e s)) es s.

(** ** The ranking as the specification words it *)


End Widget.


(** Positions 1, 2, 3, ... written into a list of rows. *)
Definition number_rows (rs : list Row) : list Row :=
  imap (fun i r => set_position (Z.of_nat i + 1) r) rs.

(** ** Heap well-formedness

    Every reference held by an array, by the standings object or by the
    grid points to an allocated object or array. *)
Definition valid_refs (h : Heap) (ls : list nat) : Prop :=
  Forall (fun l => l < length (objs h)) ls.

Definition wf_heap (h : Heap) : Prop :=
  forall a, a < length (arrs h) -> valid_refs h (read_arr h a).

Record wf (s : State) : Prop := mkWf {
  wf_arrs : wf_heap (heap s);
  wf_standings :
    Forall (fun kv => snd kv < length (arrs (heap s))) (standingsByLeague s);
  wf_table :
    match table s with
    | Some t => valid_refs (heap s) (tb_data t)
    | None => True
    end
}.

(** [h'] has everything [h] has, unchanged. *)
Record heap_le (h h' : Heap) : Prop := mkHeapLe {
  le_objs_length : length (objs h) <= length (objs h');
  le_objs : forall l, l < length (objs h) -> read_obj h' l = read_obj h l;
  le_arrs_length : length (arrs h) <= length (arrs h');
  le_arrs : forall a, a < length (arrs h) -> read_arr h' a = read_arr h a
}.

(** ** A comparator to instantiate [localeCompare] with: code-unit order *)

Fixpoint codeUnitCompare (a b : string) : Z :=
  match a, b with
  | EmptyString, EmptyString => 0
  | EmptyString, String _ _ => -1
  | String _ _, EmptyString => 1
  | String x a', String y b' =>
      let d := (Z.of_N (N_of_ascii x) - Z.of_N (N_of_ascii y))%Z in
      if (d =? 0)%Z then codeUnitCompare a' b' else d
  end.

(** ** Sample inputs

    The scenario of two teams level on points, and the messages of the
    message contract built from it. *)

Definition teamX : Row :=
  mkRow (Some "X") (Some 3%Z) None None None None None None (Some 1%Z)
        (Some "/t1") None.

Definition teamY : Row :=
  mkRow (Some "Y") (Some 3%Z) None None None None None None (Some 2%Z)
        None (Some 7%Z).

(** A row whose teamUrl is the empty string. *)
Definition teamEmptyUrl : Row :=
  mkRow (Some "X") (Some 3%Z) None None None None None None (Some 1%Z)
        (Some "") None.

Definition scenarioPayload : Payload :=
  [ ("leagues", PLeagues [mkLeague "A" (Some "Division A") None None]);
    ("standingsByLeague", PStandings [("A", [teamX; teamY])]) ].

Definition initWidget (p : option Payload) : option EventData :=
  Some (mkEventData (Some "INIT_WIDGET") p).

Definition updateTableMsg (leagueId : string) (rows : list Row)
  : option EventData :=
  Some (mkEventData (Some "UPDATE_TABLE")
          (Some [("leagueId", PString leagueId); ("standings", PRows rows)])).

(** A page with an empty selector and a wide viewport. *)
Definition page : State := initial (Some (mkSelect [] "")) true.

(** The widget after DOM-ready and the scenario's [INIT_WIDGET]. *)
Definition scenarioState : State :=
  run codeUnitCompare [DOMContentLoaded; Message (initWidget (Some scenarioPayload))]
      page.


(** ** [debounce]

    [debounce(fn, wait)] returns a closure over the variable [t].  Each call
    clears the timer [t] names and sets a new one, whose callback invokes
    [fn] with the arguments of that call.  The model keeps the closure
    variable, the timers of this closure that are set and neither fired nor
    cleared, the counter the timer ids come from, and the invocations of
    [fn]. *)

Section Debounce.
Context {Args : Type}.

Record Debounced := mkDebounced {
  db_t       : option nat;          (* let t; *)
  db_pending : list (nat * Args);   (* timers set, with the args they hold *)
  db_next    : nat;                 (* the id the next setTimeout returns *)
  db_invoked : list Args            (* calls of fn so far, oldest first *)
}.

(** The closure just returned by [debounce]: [t] is undefined. *)
Definition debounce (first_id : nat) : Debounced :=
  mkDebounced None [] first_id [].

(** [clearTimeout(t)]: an undefined or unknown id is ignored. *)
Definition clearTimeout (t : option nat) (pending : list (nat * Args))
  : list (nat * Args) :=
  match t with
  | Some i => List.filter (fun q => negb (Nat.eqb (fst q) i)) pending
  | None => pending
  end.

(** A call of the debounced function:
    [clearTimeout(t); t = setTimeout(() => fn(...args), wait)]. *)
Definition debounced_call (args : Args) (d : Debounced) : Debounced :=
  let pending := clearTimeout (db_t d) (db_pending d) in
  mkDebounced (Some (db_next d)) (pending ++ [(db_next d, args)])%list
              (S (db_next d)) (db_invoked d).

(** The timer [i] comes due: if it is still set, its callback runs. *)
Definition timer_due (i : nat) (d : Debounced) : Debounced :=
  match List.find (fun q => Nat.eqb (fst q) i) (db_pending d) with
  | Some q =>
      mkDebounced (db_t d)
        (List.filter (fun q => negb (Nat.eqb (fst q) i)) (db_pending d))
        (db_next d) (db_invoked d ++ [snd q])%list
  | None => d
  end.

Inductive DebounceEvent :=
  | DbCall (args : Args)
  | DbDue (i : nat).

Definition debounce_step (d : Debounced) (e : DebounceEvent) : Debounced :=
  match e with
  | DbCall args => debounced_call args d
  | DbDue i => timer_due i d
  end.

Definition debounce_run (es : list DebounceEvent) (d : Debounced) : Debounced :=
  fold_left debounce_step es d.

(** At most one timer is set; it is the one [t] names, and no id at or
    above the counter is in use. *)
Definition debounce_inv (d : Debounced) : Prop :=
  (db_pending d = []
   \/ exists i args, db_t d = Some i /\ db_pending d = [(i, args)])
  /\ (forall i, db_t d = Some i -> i < db_next d).
End Debounce.

Arguments Debounced : clear implicits.
Arguments DebounceEvent : clear implicits.

(** ** Observations used by the lifecycle properties *)

(** One of the five characters [escapeHtml] replaces. *)
Definition special (c : ascii) : bool :=
  Ascii.eqb c "&"%char || Ascii.eqb c "<"%char || Ascii.eqb c ">"%char
  || Ascii.eqb c dquote || Ascii.eqb c "'"%char.

(** The string holds none of them. *)
Fixpoint plain (s : string) : bool :=
  match s with
  | EmptyString => true
  | String c s' => negb (special c) && plain s'
  end.

(** The string holds no double quote. *)
Fixpoint quote_free (s : string) : bool :=
  match s with
  | EmptyString => true
  | String c s' => negb (Ascii.eqb c dquote) && quote_free s'
  end.

(** The text [populateLeagueDropdown] gives the option of a league. *)
Definition option_text (opt : League) : string :=
  str_or (name opt) (str_or (div opt) (str_or (label opt) (id opt))).

(** How often an effect occurs in the trace. *)
Definition occurrences (p : Effect -> bool) (s : State) : nat :=
  length (List.filter p (trace s)).

Definition is_ListenResize (e : Effect) : bool :=
  match e with ListenResize => true | _ => false end.

Definition is_ObserveBody (e : Effect) : bool :=
  match e with ObserveBody => true | _ => false end.


(** The flags of the message protocol are the same in both states. *)
Definition same_flags (s s' : State) : Prop :=
  domReady s' = domReady s /\ pendingPayload s' = pendingPayload s
  /\ initReceived s' = initReceived s.

(** The leagues [processInitPayload] populates the selector with:
    [leagues.length ? leagues : keysToLeagues(standingsByLeague)]. *)
Definition resolved_leagues (p : Payload) : list League :=
  match payload_leagues p with
  | [] => keysToLeagues (payload_standings p)
  | _ :: _ => payload_leagues p
  end.

(** The selector once populated with [items]. *)
Definition dropdown_of (items : list League) : Select :=
  mkSelect (map (fun opt => (id opt, option_text opt)) items)
           (match items with [] => "" | i :: _ => id i end).

(** The state [processInitPayload] has reached when it is about to render:
    leagues and standings replaced, the selector repopulated. *)
Definition init_store (p : Payload) (s : State) : State :=
  mkState (table s) (currentLayout s) (activeLeagueId s)
    (snd (new_standings (payload_standings p) (heap s)))
    (payload_leagues p) (domReady s) (pendingPayload s) (initReceived s)
    (fst (new_standings (payload_standings p) (heap s)))
    (match leagueSelect s with
     | Some _ => Some (dropdown_of (resolved_leagues p))
     | None => None
     end)
    (wideViewport s) (trace s).

(** The grid, once created, has the layout of the viewport, which is also
    the current layout; the resize listener and the body observer are
    installed once with it, and not before. *)
Definition table_inv (s : State) : Prop :=
  match table s with
  | Some t =>
      tb_layout t = getLayout s /\ currentLayout s = Some (getLayout s)
      /\ occurrences is_ListenResize s = 1 /\ occurrences is_ObserveBody s = 1
  | None =>
      currentLayout s = None
      /\ occurrences is_ListenResize s = 0 /\ occurrences is_ObserveBody s = 0
  end.

(** What holds of the buffer for an early [INIT_WIDGET]: nothing is
    pending once the DOM is ready, and a payload is pending only after an
    init was received. *)
Definition buffer_inv (s : State) : Prop :=
  (domReady s = true -> pendingPayload s = None)
  /\ (pendingPayload s <> None -> initReceived s = true).


(** The scenario's league A together with a league B that has no rows. *)
Definition twoLeagues : Payload :=
  [ ("leagues", PLeagues [mkLeague "A" (Some "Division A") None None;
                          mkLeague "B" None None (Some "Second")]);
    ("standingsByLeague", PStandings [("A", [teamX; teamY])]) ].

(** The widget after DOM-ready and an [INIT_WIDGET] with those two
    leagues. *)
Definition twoLeagueState : State :=
  run codeUnitCompare [DOMContentLoaded; Message (initWidget (Some twoLeagues))]
      page.


(** * Properties *)

Local Open Scope list_scope.

(** ** The sort *)

Section SortFacts.
Context {A : Type} (cmp : A -> A -> Z).

Lemma sort_insert_perm x l : Permutation (sort_insert cmp x l) (x :: l).
Proof.
  induction l as [|y l IH]; simpl; [reflexivity|].
  destruct (cmp x y <=? 0)%Z; [reflexivity|].
  rewrite IH. apply perm_swap.
Qed.

Lemma array_sort_perm l : Permutation (array_sort cmp l) l.
Proof.
  induction l as [|x l IH]; simpl; [reflexivity|].
  rewrite sort_insert_perm. now rewrite IH.
Qed.



(** Sorting references by the values they point to is sorting the values. *)
Lemma array_sort_map {B} (f : B -> A) (l : list B) :
  map f (array_sort (fun a b => cmp (f a) (f b)) l) = array_sort cmp (map f l).
Proof.
  induction l as [|x l IH]; simpl; [reflexivity|].
  rewrite <- IH. generalize (array_sort (fun a b => cmp (f a) (f b)) l).
  intros m. induction m as [|y m IHm]; simpl; [reflexivity|].
  destruct (cmp (f x) (f y) <=? 0)%Z; simpl; [reflexivity|].
  now rewrite IHm.
Qed.

Section Consistent.
Hypothesis cmp_total : forall x y, (0 < cmp x y)%Z -> (cmp y x <= 0)%Z.
Hypothesis cmp_trans :
  forall x y z, (cmp x y <= 0)%Z -> (cmp y z <= 0)%Z -> (cmp x z <= 0)%Z.

Lemma sort_insert_sorted x l :
  StronglySorted (cmp_le cmp) l -> StronglySorted (cmp_le cmp) (sort_insert cmp x l).
Proof.
  induction 1 as [|y l Hs IH Hy]; simpl.
  - repeat constructor.
  - destruct (Z.leb_spec (cmp x y) 0) as [Hle|Hgt].
    + constructor; [now constructor|].
      constructor; [exact Hle|].
      eapply Forall_impl; [exact Hy|].
      intros z Hz. exact (cmp_trans _ _ _ Hle Hz).
    + constructor; [exact IH|].
      apply List.Forall_forall. intros z Hz.
      apply (Permutation_in _ (sort_insert_perm x l)) in Hz.
      destruct Hz as [<-|Hz].
      * now apply cmp_total.
      * revert z Hz. now apply List.Forall_forall.
Qed.

Lemma array_sort_sorted l : StronglySorted (cmp_le cmp) (array_sort cmp l).
Proof.
  induction l as [|x l IH]; simpl; [constructor|].
  now apply sort_insert_sorted.
Qed.


(** The sort is stable: elements of one rank keep their order. *)
Lemma sort_insert_stable z x l :
  List.filter (same_rank cmp z) (sort_insert cmp x l)
  = List.filter (same_rank cmp z) (x :: l).
Proof.
  induction l as [|y l IH]; [reflexivity|]. cbn [sort_insert].
  destruct (Z.leb_spec (cmp x y) 0) as [Hle|Hgt]; [reflexivity|].
  cbn [List.filter] in *. rewrite IH.
  destruct (same_rank cmp z x) eqn:Ex, (same_rank cmp z y) eqn:Ey;
    try reflexivity.
  unfold same_rank in Ex, Ey.
  apply andb_true_iff in Ex as [_ Hxz]. apply andb_true_iff in Ey as [Hzy _].
  apply Z.leb_le in Hxz, Hzy. pose proof (cmp_trans _ _ _ Hxz Hzy). lia.
Qed.

Lemma array_sort_stable z l :
  List.filter (same_rank cmp z) (array_sort cmp l)
  = List.filter (same_rank cmp z) l.
Proof.
  induction l as [|x l IH]; [reflexivity|]. cbn [array_sort foldr].
  rewrite sort_insert_stable. cbn [List.filter].
  fold (array_sort cmp l). now rewrite IH.
Qed.

Lemma same_rank_refl x : same_rank cmp x x = true.
Proof.
  unfold same_rank. destruct (Z.leb_spec (cmp x x) 0) as [H|H]; [reflexivity|].
  pose proof (cmp_total _ _ H). lia.
Qed.

(** Two sorted lists that hold the same elements of every rank, in the same
    order, are the same list. *)
Lemma sorted_stable_unique l1 l2 :
  StronglySorted (cmp_le cmp) l1 -> StronglySorted (cmp_le cmp) l2 ->
  (forall z, List.filter (same_rank cmp z) l1 = List.filter (same_rank cmp z) l2) ->
  l1 = l2.
Proof.
  intros H1. revert l2. induction H1 as [|x l1 Hs1 IH Hx]; intros l2 H2 Hf.
  - destruct l2 as [|y l2]; [reflexivity|].
    specialize (Hf y). cbn in Hf. now rewrite same_rank_refl in Hf.
  - destruct H2 as [|y l2 Hs2 Hy].
    { specialize (Hf x). cbn in Hf. now rewrite same_rank_refl in Hf. }
    assert (Hxy : cmp_le cmp x y).
    { pose proof (Hf y) as Hfy. cbn [List.filter] in Hfy.
      rewrite (same_rank_refl y) in Hfy.
      destruct (same_rank cmp y x) eqn:E.
      - unfold same_rank in E. apply andb_true_iff in E as [_ E].
        now apply Z.leb_le in E.
      - assert (Hin : In y (List.filter (same_rank cmp y) l1))
          by (rewrite Hfy; now left).
        apply filter_In in Hin as [Hin _].
        rewrite List.Forall_forall in Hx. now apply Hx. }
    assert (Hyx : cmp_le cmp y x).
    { pose proof (Hf x) as Hfx. cbn [List.filter] in Hfx.
      rewrite (same_rank_refl x) in Hfx.
      destruct (same_rank cmp x y) eqn:E.
      - unfold same_rank in E. apply andb_true_iff in E as [_ E].
        now apply Z.leb_le in E.
      - assert (Hin : In x (List.filter (same_rank cmp x) l2))
          by (rewrite <- Hfx; now left).
        apply filter_In in Hin as [Hin _].
        rewrite List.Forall_forall in Hy. now apply Hy. }
    assert (Exy : same_rank cmp x y = true).
    { unfold same_rank. apply andb_true_iff.
      split; apply Z.leb_le; assumption. }
    assert (x = y) as <-.
    { pose proof (Hf x) as Hfx. cbn [List.filter] in Hfx.
      rewrite (same_rank_refl x), Exy in Hfx. now injection Hfx. }
    f_equal. apply IH; [exact Hs2|]. intros z. specialize (Hf z).
    cbn [List.filter] in Hf. destruct (same_rank cmp z x); [|exact Hf].
    now injection Hf.
Qed.

(** Hence any stable sort of [l] under [cmp] is [array_sort cmp l]. *)
Lemma array_sort_unique l l' :
  StronglySorted (cmp_le cmp) l' ->
  (forall z, List.filter (same_rank cmp z) l' = List.filter (same_rank cmp z) l) ->
  l' = array_sort cmp l.
Proof.
  intros Hs Hf. apply sorted_stable_unique; [exact Hs|apply array_sort_sorted|].
  intros z. now rewrite array_sort_stable.
Qed.
End Consistent.
End SortFacts.

(** ** The comparator of [renderLeague] *)

Section CompareRows.
Variable localeCompare : string -> string -> Z.



(** The comparator does not read [position]. *)
Lemma compareRows_set_position p q a b :
  compareRows localeCompare (set_position p a) (set_position q b)
  = compareRows localeCompare a b.
Proof. reflexivity. Qed.

Hypothesis localeCompare_total :
  forall a b, (0 < localeCompare a b)%Z -> (localeCompare b a <= 0)%Z.


Hypothesis localeCompare_trans :
  forall a b c, (localeCompare a b <= 0)%Z -> (localeCompare b c <= 0)%Z ->
                (localeCompare a c <= 0)%Z.

End CompareRows.

(** ** Objects used as maps *)

Section JsObjFacts.
Context {V : Type}.
Implicit Types (o : jsobj V) (k : string) (v : V).

Lemma obj_get_Forall (P : string * V -> Prop) o k v :
  Forall P o -> obj_get k o = Some v -> P (k, v).
Proof.
  induction 1 as [|[k' v'] o HP _ IH]; simpl; [discriminate|].
  destruct (String.eqb_spec k' k) as [->|]; [|exact IH].
  now intros [= <-].
Qed.

Lemma obj_get_app o1 o2 k :
  obj_get k (o1 ++ o2)
  = match obj_get k o1 with Some v => Some v | None => obj_get k o2 end.
Proof.
  induction o1 as [|[k' v'] o1 IH]; simpl; [reflexivity|].
  now destruct (String.eqb k' k).
Qed.

Lemma obj_get_replace o k v k' :
  obj_get k' (obj_replace k v o)
  = if String.eqb k k' then (match obj_get k o with
                             | Some _ => Some v
                             | None => None
                             end)
    else obj_get k' o.
Proof.
  induction o as [|[k0 v0] o IH]; simpl.
  - now destruct (String.eqb k k').
  - destruct (String.eqb_spec k0 k) as [->|Hne]; simpl.
    + destruct (String.eqb_spec k k'); reflexivity.
    + rewrite IH. destruct (String.eqb_spec k k') as [E'|]; [subst k'|reflexivity].
      destruct (String.eqb_spec k0 k); [contradiction|reflexivity].
Qed.

Lemma obj_get_add_index n o k v k' :
  obj_get k o = None ->
  obj_get k' (obj_add_index n k v o)
  = if String.eqb k k' then Some v else obj_get k' o.
Proof.
  induction o as [|[k0 v0] o IH]; simpl; intros Hk.
  - reflexivity.
  - destruct (String.eqb_spec k0 k) as [->|Hne]; [discriminate|].
    destruct (array_index k0) as [n'|]; [destruct (n' <? n)%N|]; simpl;
      try reflexivity.
    rewrite (IH Hk).
    destruct (String.eqb_spec k k') as [E'|]; [subst k'|reflexivity].
    destruct (String.eqb_spec k0 k); [contradiction|reflexivity].
Qed.

(** Reading after [o[k] = v]. *)
Lemma obj_get_set o k v k' :
  obj_get k' (obj_set k v o) = if String.eqb k k' then Some v else obj_get k' o.
Proof.
  unfold obj_set, obj_has. destruct (obj_get k o) as [v0|] eqn:E.
  - rewrite obj_get_replace, E. reflexivity.
  - destruct (array_index k) as [n|].
    + now apply obj_get_add_index.
    + rewrite obj_get_app. simpl.
      destruct (String.eqb_spec k k') as [E'|]; [subst k'; now rewrite E|].
      now destruct (obj_get k' o).
Qed.

Lemma obj_set_Forall (Q : V -> Prop) o k v :
  Forall (fun kv => Q (snd kv)) o -> Q v ->
  Forall (fun kv => Q (snd kv)) (obj_set k v o).
Proof.
  intros Ho Hv. unfold obj_set. destruct (obj_has k o).
  - induction Ho as [|[k0 v0] o H0 Ho IH]; simpl; [constructor|].
    destruct (String.eqb k0 k); constructor; auto.
  - destruct (array_index k) as [n|].
    + induction Ho as [|[k0 v0] o H0 Ho IH]; simpl; [repeat constructor; auto|].
      destruct (array_index k0) as [n'|]; [destruct (n' <? n)%N|];
        repeat constructor; auto.
    + apply Forall_app. split; [exact Ho|]. repeat constructor. exact Hv.
Qed.

(** [o[k] = v] never removes a key. *)
Lemma obj_set_nonempty o k v : obj_set k v o <> [].
Proof.
  unfold obj_set, obj_has.
  destruct (obj_get k o) as [v0|] eqn:E.
  - destruct o as [|[k0 v1] o]; [discriminate|]. simpl.
    now destruct (String.eqb k0 k).
  - destruct (array_index k) as [n|].
    + destruct o as [|[k0 v1] o]; simpl; [discriminate|].
      destruct (array_index k0) as [n'|]; [destruct (n' <? n)%N|]; discriminate.
    + now destruct o.
Qed.
End JsObjFacts.

(** ** The heap *)

Lemma read_obj_app h extra A l :
  l < length (objs h) ->
  read_obj (mkHeap (objs h ++ extra) A) l = read_obj h l.
Proof.
  intros Hl. unfold read_obj. simpl. now rewrite lookup_app_l.
Qed.

Lemma map_read_obj_app h extra A ls :
  valid_refs h ls ->
  map (read_obj (mkHeap (objs h ++ extra) A)) ls = map (read_obj h) ls.
Proof.
  intros Hv. apply map_ext_Forall. eapply Forall_impl; [exact Hv|].
  intros l Hl. now apply read_obj_app.
Qed.

(** Reading back a block of freshly allocated objects. *)
Lemma map_read_fresh O R A :
  map (read_obj (mkHeap (O ++ R) A)) (seq (length O) (length R)) = R.
Proof.
  revert O. induction R as [|r R IH]; intros O; simpl; [reflexivity|].
  f_equal.
  - unfold read_obj. simpl. rewrite lookup_app_r by lia.
    now rewrite Nat.sub_diag.
  - specialize (IH (O ++ [r])). rewrite length_app in IH. simpl in IH.
    rewrite Nat.add_1_r in IH. now rewrite <- app_assoc in IH.
Qed.

Lemma new_objs_spec rs h :
  new_objs rs h
  = (mkHeap (objs h ++ rs) (arrs h), seq (length (objs h)) (length rs)).
Proof.
  revert h. induction rs as [|r rs IH]; intros h; simpl.
  - rewrite app_nil_r. now destruct h.
  - rewrite IH. simpl. rewrite length_app. simpl.
    rewrite Nat.add_1_r, <- app_assoc. reflexivity.
Qed.

Lemma copy_each_spec src h :
  valid_refs h src ->
  copy_each src h
  = (mkHeap (objs h ++ map (read_obj h) src) (arrs h),
     seq (length (objs h)) (length src)).
Proof.
  revert h. induction src as [|x src IH]; intros h Hv; simpl.
  - rewrite app_nil_r. now destruct h.
  - apply Forall_cons in Hv as [Hx Hv].
    rewrite IH.
    + simpl. rewrite length_app. simpl.
      rewrite Nat.add_1_r, <- app_assoc. simpl.
      rewrite (map_read_obj_app h [read_obj h x] (arrs h) src Hv).
      reflexivity.
    + unfold valid_refs. simpl. rewrite length_app. simpl.
      eapply Forall_impl; [exact Hv|]. simpl. intros; lia.
Qed.

Lemma new_array_spec rs h :
  new_array rs h
  = (mkHeap (objs h ++ rs)
            (arrs h ++ [seq (length (objs h)) (length rs)]),
     length (arrs h)).
Proof. unfold new_array. rewrite new_objs_spec. reflexivity. Qed.

(** *** Heaps that only grow *)

Lemma read_arr_snoc h O d :
  read_arr (mkHeap O (arrs h ++ [d])) (length (arrs h)) = d.
Proof.
  unfold read_arr. simpl. rewrite lookup_app_r by lia.
  now rewrite Nat.sub_diag.
Qed.

Lemma heap_le_refl h : heap_le h h.
Proof. now constructor. Qed.

Lemma heap_le_trans h1 h2 h3 : heap_le h1 h2 -> heap_le h2 h3 -> heap_le h1 h3.
Proof.
  intros [a1 b1 c1 d1] [a2 b2 c2 d2]. constructor; try lia.
  - intros l Hl. rewrite b2 by lia. now apply b1.
  - intros a Ha. rewrite d2 by lia. now apply d1.
Qed.

Lemma heap_le_app h eo ea : heap_le h (mkHeap (objs h ++ eo) (arrs h ++ ea)).
Proof.
  constructor; simpl; rewrite ?length_app; try lia.
  - intros l Hl. now apply read_obj_app.
  - intros a Ha. unfold read_arr. simpl. now rewrite lookup_app_l.
Qed.

Lemma heap_le_valid h h' ls : heap_le h h' -> valid_refs h ls -> valid_refs h' ls.
Proof.
  intros [Hl _ _ _] Hv. unfold valid_refs.
  eapply Forall_impl; [exact Hv|]. simpl. intros; lia.
Qed.

Lemma heap_le_map_read h h' ls :
  heap_le h h' -> valid_refs h ls -> map (read_obj h') ls = map (read_obj h) ls.
Proof.
  intros [_ Hr _ _] Hv. apply map_ext_Forall.
  eapply Forall_impl; [exact Hv|]. exact Hr.
Qed.

Lemma heap_le_rows_of h h' a :
  wf_heap h -> heap_le h h' -> a < length (arrs h) -> rows_of h' a = rows_of h a.
Proof.
  intros Hwf Hle Ha. unfold rows_of. rewrite (le_arrs _ _ Hle) by exact Ha.
  apply heap_le_map_read; [exact Hle|]. now apply Hwf.
Qed.

(** Adding one array of valid references keeps the heap well formed. *)
Lemma wf_heap_snoc h h' d :
  wf_heap h -> heap_le h h' -> arrs h' = arrs h ++ [d] -> valid_refs h' d ->
  wf_heap h'.
Proof.
  intros Hwf Hle Ha Hd a. rewrite Ha, length_app. simpl. intros Hlt.
  destruct (decide (a < length (arrs h))) as [Hin|Hout].
  - rewrite (le_arrs _ _ Hle) by exact Hin.
    eapply heap_le_valid; [exact Hle|]. now apply Hwf.
  - assert (a = length (arrs h)) as -> by lia.
    unfold read_arr. rewrite Ha, lookup_app_r by lia.
    now rewrite Nat.sub_diag.
Qed.

Lemma new_array_le rs h : heap_le h (fst (new_array rs h)).
Proof. rewrite new_array_spec. apply heap_le_app. Qed.

Lemma new_array_rows rs h :
  rows_of (fst (new_array rs h)) (snd (new_array rs h)) = rs.
Proof.
  rewrite new_array_spec. unfold rows_of. simpl.
  rewrite read_arr_snoc. apply map_read_fresh.
Qed.

Lemma new_array_wf rs h : wf_heap h -> wf_heap (fst (new_array rs h)).
Proof.
  intros Hwf. eapply wf_heap_snoc; [exact Hwf|apply new_array_le| |].
  - rewrite new_array_spec. reflexivity.
  - rewrite new_array_spec. unfold valid_refs. simpl.
    apply List.Forall_forall. intros l Hl. apply in_seq in Hl.
    rewrite length_app. lia.
Qed.

Lemma new_standings_spec m h h' o :
  new_standings m h = (h', o) ->
  heap_le h h'
  /\ (wf_heap h -> wf_heap h')
  /\ Forall (fun kv => snd kv < length (arrs h')) o
  /\ map fst o = map fst m.
Proof.
  revert h h' o. induction m as [|[k rs] m IH]; intros h h' o; simpl.
  - intros [= <- <-]. split; [apply heap_le_refl|]. repeat split; auto.
  - pose proof (new_array_le rs h) as Hle1.
    pose proof (new_array_wf rs h) as Hwf1.
    assert (Ha : snd (new_array rs h) < length (arrs (fst (new_array rs h)))).
    { rewrite new_array_spec. simpl. rewrite length_app. simpl. lia. }
    destruct (new_array rs h) as [h1 a]. simpl in *.
    destruct (new_standings m h1) as [h2 o2] eqn:E.
    intros [= <- <-].
    destruct (IH _ _ _ E) as (Hle2 & Hwf2 & Ho & Hk).
    split; [|split; [|split]].
    + eapply heap_le_trans; eassumption.
    + auto.
    + constructor; [|exact Ho]. simpl.
      pose proof (le_arrs_length _ _ Hle2). lia.
    + simpl. now rewrite Hk.
Qed.

(** *** Writing positions *)

Lemma assign_positions_arrs ls i h :
  arrs (assign_positions ls i h) = arrs h.
Proof. revert i h. induction ls as [|r rs IH]; intros; simpl; [reflexivity|]. now rewrite IH. Qed.

Lemma assign_positions_length ls i h :
  length (objs (assign_positions ls i h)) = length (objs h).
Proof.
  revert i h. induction ls as [|r rs IH]; intros; simpl; [reflexivity|].
  rewrite IH. simpl. apply length_insert.
Qed.

(** Objects outside the list are not written. *)
Lemma assign_positions_frame ls i h l :
  ~ In l ls -> read_obj (assign_positions ls i h) l = read_obj h l.
Proof.
  revert i h. induction ls as [|r rs IH]; intros i h Hn; simpl; [reflexivity|].
  rewrite IH by (intros H; apply Hn; now right).
  unfold read_obj, write_obj. simpl.
  rewrite list_lookup_insert_ne; [reflexivity|].
  intros ->. apply Hn. now left.
Qed.

Lemma assign_positions_map ls i h :
  NoDup ls -> valid_refs h ls ->
  map (read_obj (assign_positions ls i h)) ls
  = imap (fun j r => set_position (Z.of_nat (i + j) + 1) r) (map (read_obj h) ls).
Proof.
  revert i h. induction ls as [|r rs IH]; intros i h Hnd Hv; [reflexivity|].
  apply NoDup_cons in Hnd as [Hr Hnd]. apply Forall_cons in Hv as [Hrv Hv].
  assert (Hr' : ~ In r rs) by (now rewrite <- list_elem_of_In).
  simpl. f_equal.
  - rewrite assign_positions_frame by exact Hr'.
    unfold read_obj at 1. unfold write_obj. simpl.
    rewrite list_lookup_insert_eq by exact Hrv. simpl.
    now rewrite Nat.add_0_r.
  - rewrite IH; [|exact Hnd|].
    + assert (Hm : map (read_obj (write_obj r
                     (set_position (Z.of_nat i + 1) (read_obj h r)) h)) rs
                   = map (read_obj h) rs).
      { apply map_ext_in. intros l Hl. unfold read_obj, write_obj. simpl.
        rewrite list_lookup_insert_ne; [reflexivity|].
        intros ->. now apply Hr'. }
      rewrite Hm. apply imap_ext. intros j x _. simpl.
      now rewrite Nat.add_succ_r.
    + unfold valid_refs, write_obj. simpl. now rewrite length_insert.
Qed.

(** ** Rendering *)

Section Render.
Variable localeCompare : string -> string -> Z.

Lemma ranked_copy_spec src h h' data :
  valid_refs h src ->
  ranked_copy localeCompare src h = (h', data) ->
  map (read_obj h') data
    = number_rows (array_sort (compareRows localeCompare) (map (read_obj h) src))
  /\ (forall l, l < length (objs h) -> read_obj h' l = read_obj h l)
  /\ arrs h' = arrs h ++ [data]
  /\ length (objs h') = length (objs h) + length src
  /\ valid_refs h' data.
Proof.
  intros Hv. unfold ranked_copy. rewrite (copy_each_spec _ _ Hv).
  cbn [alloc_arr objs arrs].
  set (O := objs h). set (R := map (read_obj h) src).
  set (fresh := seq (length O) (length src)).
  set (h2 := mkHeap (O ++ R) (arrs h ++ [fresh])).
  assert (Hr2 : read_arr h2 (length (arrs h)) = fresh).
  { unfold read_arr, h2. simpl. rewrite lookup_app_r by lia.
    now rewrite Nat.sub_diag. }
  rewrite Hr2.
  set (sorted := array_sort _ fresh).
  assert (Hw : write_arr (length (arrs h)) sorted h2
               = mkHeap (O ++ R) (arrs h ++ [sorted])).
  { unfold write_arr, h2. simpl. f_equal.
    rewrite insert_app_r_alt by lia. now rewrite Nat.sub_diag. }
  rewrite Hw. set (h3 := mkHeap (O ++ R) (arrs h ++ [sorted])).
  assert (Hr3 : read_arr h3 (length (arrs h)) = sorted).
  { unfold read_arr, h3. simpl. rewrite lookup_app_r by lia.
    now rewrite Nat.sub_diag. }
  rewrite Hr3.
  assert (Hperm : Permutation sorted fresh) by apply array_sort_perm.
  assert (Hnd : NoDup sorted).
  { rewrite Hperm. apply NoDup_seq. }
  assert (Hlen : length R = length src) by apply length_map.
  assert (Hvs : valid_refs h3 sorted).
  { unfold valid_refs. rewrite Hperm. apply List.Forall_forall.
    intros l Hl. apply in_seq in Hl. unfold h3. simpl.
    rewrite length_app. lia. }
  intros [= <- <-].
  assert (Hr4 : read_arr (assign_positions sorted 0 h3) (length (arrs h)) = sorted).
  { unfold read_arr. rewrite assign_positions_arrs. exact Hr3. }
  rewrite Hr4. repeat split.
  - rewrite (assign_positions_map sorted 0 h3 Hnd Hvs).
    change (read_obj h3) with (read_obj h2).
    unfold number_rows, sorted.
    rewrite (array_sort_map (compareRows localeCompare) (read_obj h2) fresh).
    unfold h2, fresh. rewrite <- Hlen, map_read_fresh.
    reflexivity.
  - intros l Hl. rewrite assign_positions_frame.
    + unfold h3. now apply read_obj_app.
    + intros Hin. apply (Permutation_in _ Hperm) in Hin.
      apply in_seq in Hin. fold O in Hl. lia.
  - now rewrite assign_positions_arrs.
  - rewrite assign_positions_length. unfold h3. simpl.
    rewrite length_app. fold O. lia.
  - unfold valid_refs. rewrite assign_positions_length. exact Hvs.
Qed.

(** [renderLeague] written out field by field. *)
Lemma renderLeague_unfold leagueId s :
  exists h' data,
    ranked_copy localeCompare (stored_refs s leagueId) (heap s) = (h', data)
    /\ renderLeague localeCompare leagueId s
       = mkState
           (Some (mkTable (match table s with
                           | Some t => tb_layout t
                           | None => getLayout s
                           end) data))
           (match table s with
            | Some _ => currentLayout s
            | None => Some (getLayout s)
            end)
           (Some leagueId) (standingsByLeague s) (leagues s) (domReady s)
           (pendingPayload s) (initReceived s) h' (leagueSelect s)
           (wideViewport s)
           (trace s
            ++ (match table s with
                | Some _ => []
                | None => [ListenResize; ObserveBody]
                end)
            ++ [SetData data; Redraw]).
Proof.
  unfold renderLeague.
  change (stored_refs (set_activeLeagueId (Some leagueId) s) leagueId)
    with (stored_refs s leagueId).
  change (heap (set_activeLeagueId (Some leagueId) s)) with (heap s).
  destruct (ranked_copy localeCompare (stored_refs s leagueId) (heap s))
    as [h' data].
  exists h', data. split; [reflexivity|].
  destruct s as [[t|] ? ? ? ? ? ? ? ? ? ? tr]; cbn.
  - unfold emit; cbn. now rewrite <- app_assoc.
  - unfold emit; cbn. now rewrite <- !app_assoc.
Qed.

Lemma wf_stored_refs s leagueId :
  wf s -> valid_refs (heap s) (stored_refs s leagueId).
Proof.
  intros [Ha Hs _]. unfold stored_refs.
  destruct (obj_get leagueId (standingsByLeague s)) as [a|] eqn:E;
    [|constructor].
  apply Ha. apply obj_get_Forall with (1 := Hs) in E. exact E.
Qed.

Lemma stored_rows s leagueId :
  default [] (stored s leagueId) = map (read_obj (heap s)) (stored_refs s leagueId).
Proof.
  unfold stored, stored_refs, rows_of.
  now destruct (obj_get leagueId (standingsByLeague s)).
Qed.

(** What the grid shows after a render: the stored rows of the league,
    sorted, with positions 1, 2, ... *)
Lemma render_displayed s leagueId :
  wf s ->
  displayed (renderLeague localeCompare leagueId s)
  = number_rows (array_sort (compareRows localeCompare)
                            (default [] (stored s leagueId))).
Proof.
  intros Hwf.
  destruct (renderLeague_unfold leagueId s) as (h' & data & Hrc & ->).
  apply ranked_copy_spec in Hrc as (Hd & _); [|now apply wf_stored_refs].
  unfold displayed. cbn. now rewrite Hd, stored_rows.
Qed.

Lemma ranked_copy_le src h h' data :
  valid_refs h src ->
  ranked_copy localeCompare src h = (h', data) ->
  heap_le h h'.
Proof.
  intros Hv Hrc.
  destruct (ranked_copy_spec _ _ _ _ Hv Hrc) as (_ & Hr & Ha & Hl & _).
  constructor.
  - lia.
  - exact Hr.
  - rewrite Ha, length_app. lia.
  - intros a Hlt. unfold read_arr. rewrite Ha. now rewrite lookup_app_l.
Qed.

Lemma ranked_copy_wf src h h' data :
  wf_heap h -> valid_refs h src ->
  ranked_copy localeCompare src h = (h', data) ->
  wf_heap h'.
Proof.
  intros Hwf Hv Hrc.
  destruct (ranked_copy_spec _ _ _ _ Hv Hrc) as (_ & _ & Ha & _ & Hd).
  eapply wf_heap_snoc; eauto using ranked_copy_le.
Qed.

Lemma render_heap_le s leagueId :
  wf s -> heap_le (heap s) (heap (renderLeague localeCompare leagueId s)).
Proof.
  intros Hwf.
  destruct (renderLeague_unfold leagueId s) as (h' & data & Hrc & ->).
  cbn. eapply ranked_copy_le; [|exact Hrc]. now apply wf_stored_refs.
Qed.

(** Rendering keeps the state well formed. *)
Lemma render_wf s leagueId : wf s -> wf (renderLeague localeCompare leagueId s).
Proof.
  intros Hwf.
  pose proof (wf_stored_refs s leagueId Hwf) as Hv.
  destruct (renderLeague_unfold leagueId s) as (h' & data & Hrc & ->).
  pose proof (ranked_copy_le _ _ _ _ Hv Hrc) as Hle.
  destruct (ranked_copy_spec _ _ _ _ Hv Hrc) as (_ & _ & Ha & _ & Hd).
  destruct Hwf as [H1 H2 H3]. constructor; cbn.
  - eapply ranked_copy_wf; eassumption.
  - eapply Forall_impl; [exact H2|]. simpl. intros kv Hkv.
    pose proof (le_arrs_length _ _ Hle). lia.
  - exact Hd.
Qed.

(** Rendering leaves the standings object and every row it holds as they
    were. *)
Lemma render_stored s leagueId k :
  wf s -> stored (renderLeague localeCompare leagueId s) k = stored s k.
Proof.
  intros Hwf. pose proof (render_heap_le s leagueId Hwf) as Hle.
  destruct (renderLeague_unfold leagueId s) as (h' & data & Hrc & Heq).
  rewrite Heq in *. cbn in Hle. unfold stored. cbn.
  destruct (obj_get k (standingsByLeague s)) as [a|] eqn:E; [|reflexivity].
  f_equal. apply heap_le_rows_of; [apply Hwf|exact Hle|].
  exact (obj_get_Forall _ _ _ _ (wf_standings _ Hwf) E).
Qed.

Lemma render_standings s leagueId :
  standingsByLeague (renderLeague localeCompare leagueId s) = standingsByLeague s.
Proof.
  now destruct (renderLeague_unfold leagueId s) as (h' & data & _ & ->).
Qed.

Lemma render_renders s leagueId :
  renders (renderLeague localeCompare leagueId s) = S (renders s).
Proof.
  destruct (renderLeague_unfold leagueId s) as (h' & data & _ & ->).
  unfold renders. cbn. rewrite !List.filter_app, !length_app.
  destruct (table s); simpl; lia.
Qed.
End Render.

(** ** Well-formedness is an invariant of the event loop *)

Section Invariant.
Variable localeCompare : string -> string -> Z.

Lemma wf_same s s' :
  heap s' = heap s -> standingsByLeague s' = standingsByLeague s ->
  table s' = table s -> wf s -> wf s'.
Proof.
  intros Hh Hs Ht [H1 H2 H3]. constructor; rewrite ?Hh, ?Hs, ?Ht; assumption.
Qed.

Lemma wf_initial sel wide : wf (initial sel wide).
Proof.
  constructor; cbn; auto. intros a Ha. simpl in Ha. lia.
Qed.

Lemma wf_table_layout s t l :
  table s = Some t -> wf s ->
  wf (set_currentLayout (Some l) (set_table (Some (mkTable l (tb_data t))) s)).
Proof.
  intros Ht [H1 H2 H3]. rewrite Ht in H3. now constructor.
Qed.

Lemma onResize_wf s : wf s -> wf (onResize s).
Proof.
  intros Hwf. unfold onResize.
  destruct (table s) as [t|] eqn:Ht; [|exact Hwf].
  destruct (currentLayout s) as [[]|], (getLayout s); try exact Hwf;
    (eapply wf_same; [| | |apply (wf_table_layout s t)]; 
     [reflexivity|reflexivity|reflexivity|exact Ht|exact Hwf]).
Qed.

Lemma onBodyResize_wf s : wf s -> wf (onBodyResize s).
Proof.
  intros Hwf. unfold onBodyResize. destruct (table s); [|exact Hwf].
  now apply (wf_same s).
Qed.

Lemma cellClick_wf data s : wf s -> wf (cellClick data s).
Proof.
  intros Hwf. unfold cellClick. destruct (truthy (teamUrl data)); [|exact Hwf].
  now apply (wf_same s).
Qed.

Lemma retryRender_wf leagueId s : wf s -> wf (retryRender localeCompare leagueId s).
Proof.
  intros Hwf. unfold retryRender.
  destruct (activeLeagueId s) as [a|]; [|exact Hwf].
  destruct (String.eqb a leagueId); [|exact Hwf]. now apply render_wf.
Qed.

Lemma onSelectChange_wf v s : wf s -> wf (onSelectChange localeCompare v s).
Proof.
  intros Hwf. unfold onSelectChange. destruct (leagueSelect s); [|exact Hwf].
  apply render_wf. now apply (wf_same s).
Qed.

Lemma scheduleInitialRender_wf leagueId s :
  wf s -> wf (scheduleInitialRender localeCompare leagueId s).
Proof.
  intros Hwf. unfold scheduleInitialRender.
  apply (wf_same (renderLeague localeCompare leagueId
                    (set_activeLeagueId (Some leagueId) s)));
    [reflexivity..|].
  apply render_wf. now apply (wf_same s).
Qed.

Lemma store_standings_eq leagueId rows s :
  store_standings leagueId rows s
  = set_standingsByLeague
      (obj_set leagueId (length (arrs (heap s))) (standingsByLeague s))
      (set_heap (mkHeap (objs (heap s) ++ rows)
                        (arrs (heap s)
                         ++ [seq (length (objs (heap s))) (length rows)])) s).
Proof. unfold store_standings. now rewrite new_array_spec. Qed.

(** Storing a new array under a key. *)
Lemma store_wf s rows leagueId : wf s -> wf (store_standings leagueId rows s).
Proof.
  intros [H1 H2 H3].
  pose proof (new_array_le rows (heap s)) as Hle.
  pose proof (new_array_wf rows (heap s) H1) as Hwf.
  rewrite store_standings_eq. rewrite new_array_spec in Hle, Hwf. simpl in *.
  constructor; cbn.
  - exact Hwf.
  - apply (obj_set_Forall (fun a => a < length (arrs (heap s) ++ [_]))).
    + eapply Forall_impl; [exact H2|]. simpl. intros kv Hkv.
      rewrite length_app. lia.
    + rewrite length_app. simpl. lia.
  - destruct (table s); [|exact I]. eapply heap_le_valid; eassumption.
Qed.

Lemma updateTable_wf payload s : wf s -> wf (updateTable localeCompare payload s).
Proof.
  intros Hwf. unfold updateTable.
  destruct payload as [p|]; [|exact Hwf].
  destruct (obj_get "leagueId" p) as [[leagueId| | | |]|]; try exact Hwf.
  destruct (obj_get "standings" p) as [v|]; [|exact Hwf].
  destruct (truthy (Some leagueId)); [|exact Hwf].
  destruct (as_array v) as [rows|]; [|exact Hwf].
  pose proof (store_wf s rows leagueId Hwf) as Hst.
  destruct (activeLeagueId (store_standings leagueId rows s)) as [act|];
    [|exact Hst].
  destruct (String.eqb act leagueId); [|exact Hst]. now apply render_wf.
Qed.

Lemma populateLeagueDropdown_wf items s : wf s -> wf (populateLeagueDropdown items s).
Proof.
  intros Hwf. unfold populateLeagueDropdown.
  destruct (leagueSelect s); [|exact Hwf]. now apply (wf_same s).
Qed.

Lemma processInitPayload_wf payload s :
  wf s -> wf (state_of (processInitPayload localeCompare payload s)).
Proof.
  intros Hwf. unfold processInitPayload.
  destruct payload as [p|]; [|exact Hwf].
  change (heap (set_leagues (payload_leagues p) s)) with (heap s).
  destruct (new_standings (payload_standings p) (heap s)) as [h sb] eqn:E.
  apply new_standings_spec in E as (Hle & Hh & Hsb & _).
  set (s1 := set_standingsByLeague sb _).
  assert (Hwf1 : wf s1).
  { destruct Hwf as [H1 H2 H3]. constructor; cbn; auto.
    destruct (table s); [|exact I]. eapply heap_le_valid; eassumption. }
  clearbody s1.
  match goal with |- context [populateLeagueDropdown ?items s1] =>
    generalize items end.
  intros items.
  pose proof (populateLeagueDropdown_wf items s1 Hwf1) as Hwf2.
  destruct items as [|first items]; [exact Hwf2|].
  set (s2 := populateLeagueDropdown _ s1) in *. clearbody s2.
  simpl. apply scheduleInitialRender_wf.
  destruct (leagueSelect s2); [|exact Hwf2]. now apply (wf_same s2).
Qed.

Lemma bootstrapTimer_wf s : wf s -> wf (state_of (bootstrapTimer localeCompare s)).
Proof.
  intros Hwf. unfold bootstrapTimer.
  destruct (_ && _); [|exact Hwf]. now apply processInitPayload_wf.
Qed.

Lemma onDOMContentLoaded_wf s :
  wf s -> wf (state_of (onDOMContentLoaded localeCompare s)).
Proof.
  intros Hwf. unfold onDOMContentLoaded.
  assert (Hwf0 : wf (set_domReady true s)) by now apply (wf_same s).
  change (pendingPayload (set_domReady true s)) with (pendingPayload s).
  destruct (pendingPayload s) as [p|].
  - pose proof (processInitPayload_wf (Some p) _ Hwf0) as H.
    destruct (processInitPayload localeCompare (Some p) (set_domReady true s));
      simpl in *; [|exact H].
    now apply (wf_same s0).
  - simpl. now apply (wf_same (set_domReady true s)).
Qed.

Lemma onMessageFromHost_wf data s :
  wf s -> wf (state_of (onMessageFromHost localeCompare data s)).
Proof.
  intros Hwf. unfold onMessageFromHost.
  destruct (match data with Some d => _ | None => _ end) as [ty payload].
  destruct (negb (truthy ty)); [exact Hwf|].
  assert (Hupd : forall s', wf s' ->
            wf (state_of (if String.eqb (default "" ty) "UPDATE_TABLE"
                          then Normal (updateTable localeCompare payload s')
                          else Normal s'))).
  { intros s' Hs'. destruct (String.eqb _ _); simpl; [|exact Hs'].
    now apply updateTable_wf. }
  destruct (String.eqb (default "" ty) "INIT_WIDGET"); [|now apply Hupd].
  assert (Hwf0 : wf (set_initReceived true s)) by now apply (wf_same s).
  change (domReady (set_initReceived true s)) with (domReady s).
  destruct (negb (domReady s)); simpl.
  - now apply (wf_same s).
  - pose proof (processInitPayload_wf payload _ Hwf0) as H.
    destruct (processInitPayload localeCompare payload (set_initReceived true s));
      simpl in *; [|exact H].
    now apply Hupd.
Qed.

Lemma handle_wf e s : wf s -> wf (state_of (handle localeCompare e s)).
Proof.
  intros Hwf. destruct e as [data| |v|[leagueId|]|data|wide|]; simpl.
  - now apply onMessageFromHost_wf.
  - now apply onDOMContentLoaded_wf.
  - now apply onSelectChange_wf.
  - now apply retryRender_wf.
  - now apply bootstrapTimer_wf.
  - now apply cellClick_wf.
  - apply onResize_wf. now apply (wf_same s).
  - now apply onBodyResize_wf.
Qed.

(** Every state the widget reaches from a well-formed one is well formed. *)
Lemma run_wf es s : wf s -> wf (run localeCompare es s).
Proof.
  revert s. induction es as [|e es IH]; intros s Hwf; simpl; [exact Hwf|].
  apply IH. now apply handle_wf.
Qed.
(** In particular every state reached from a page load. *)
Lemma reachable_wf es sel wide : wf (run localeCompare es (initial sel wide)).
Proof. apply run_wf, wf_initial. Qed.
End Invariant.

(** ** The code-unit comparator is consistent *)




Lemma scenarioState_wf : wf scenarioState.
Proof. apply run_wf, wf_initial. Qed.

(** ** Numbering *)


Lemma number_rows_lookup rs i r :
  number_rows rs !! i = Some r ->
  exists r0, rs !! i = Some r0 /\ r = set_position (Z.of_nat i + 1) r0.
Proof.
  unfold number_rows. rewrite list_lookup_imap.
  destruct (rs !! i) as [r0|]; simpl; [|discriminate].
  intros [= <-]. eauto.
Qed.






Section Behaviour.
Variable localeCompare : string -> string -> Z.

(** [localeCompare] is a consistent comparator, as the language requires
    of it: of two strings, one does not compare above the other, and
    "does not compare above" is transitive. *)
Hypothesis localeCompare_total :
  forall a b, (0 < localeCompare a b)%Z -> (localeCompare b a <= 0)%Z.
Hypothesis localeCompare_trans :
  forall a b c, (localeCompare a b <= 0)%Z -> (localeCompare b c <= 0)%Z ->
                (localeCompare a c <= 0)%Z.






(** C9: a render leaves the standings object as it was: the same keys and
    arrays, every row object and array that existed before unchanged, hence
    the same rows (upstream positions included) for every league; what is
    shown carries the recomputed positions, not the stored ones. *)
Theorem renderLeague_preserves_store (s : State) (leagueId : string) :
  wf s ->
  let s' := renderLeague localeCompare leagueId s in
  standingsByLeague s' = standingsByLeague s
  /\ heap_le (heap s) (heap s')
  /\ (forall k, stored s' k = stored s k)
  /\ (forall i r, displayed s' !! i = Some r ->
        position r = Some (Z.of_nat i + 1)%Z).
Proof.
  intros Hwf s'. split; [|split; [|split]].
  - apply render_standings.
  - now apply render_heap_le.
  - intros k. now apply render_stored.
  - intros i r Hr. unfold s' in Hr. rewrite render_displayed in Hr by exact Hwf.
    apply number_rows_lookup in Hr as (r0 & _ & ->). reflexivity.
Qed.
(** ** Messages *)


Lemma store_stored_same leagueId rows s :
  stored (store_standings leagueId rows s) leagueId = Some rows.
Proof.
  pose proof (new_array_rows rows (heap s)) as Hr.
  unfold store_standings. destruct (new_array rows (heap s)) as [h a].
  unfold stored. cbn. rewrite obj_get_set, String.eqb_refl. now f_equal.
Qed.

Lemma store_stored_other leagueId rows s k :
  wf s -> k <> leagueId ->
  stored (store_standings leagueId rows s) k = stored s k.
Proof.
  intros Hwf Hk.
  pose proof (new_array_le rows (heap s)) as Hle.
  unfold store_standings. destruct (new_array rows (heap s)) as [h a].
  unfold stored. cbn. rewrite obj_get_set.
  destruct (String.eqb_spec leagueId k) as [->|_]; [contradiction|].
  destruct (obj_get k (standingsByLeague s)) as [a'|] eqn:E; [|reflexivity].
  f_equal. apply heap_le_rows_of; [apply Hwf|exact Hle|].
  exact (obj_get_Forall _ _ _ _ (wf_standings _ Hwf) E).
Qed.

Lemma store_displayed leagueId rows s :
  wf s -> displayed (store_standings leagueId rows s) = displayed s.
Proof.
  intros Hwf.
  pose proof (new_array_le rows (heap s)) as Hle.
  unfold store_standings. destruct (new_array rows (heap s)) as [h a].
  unfold displayed. cbn. pose proof (wf_table _ Hwf) as Ht.
  destruct (table s) as [t|]; [|reflexivity].
  now apply heap_le_map_read.
Qed.

Lemma store_frame leagueId rows s :
  table (store_standings leagueId rows s) = table s
  /\ trace (store_standings leagueId rows s) = trace s
  /\ activeLeagueId (store_standings leagueId rows s) = activeLeagueId s.
Proof.
  unfold store_standings. now destruct (new_array rows (heap s)).
Qed.

(** The handler on an [UPDATE_TABLE] message. *)
Lemma onMessage_update payload s :
  onMessageFromHost localeCompare
    (Some (mkEventData (Some "UPDATE_TABLE") payload)) s
  = Normal (updateTable localeCompare payload s).
Proof. reflexivity. Qed.

(** The [UPDATE_TABLE] branch on a payload it accepts. *)
Lemma updateTable_accepts p leagueId v rows s :
  obj_get "leagueId" p = Some (PString leagueId) -> leagueId <> "" ->
  obj_get "standings" p = Some v -> as_array v = Some rows ->
  updateTable localeCompare (Some p) s
  = let s1 := store_standings leagueId rows s in
    match activeLeagueId s with
    | Some act =>
        if String.eqb act leagueId then renderLeague localeCompare act s1 else s1
    | None => s1
    end.
Proof.
  intros Hid Hne Hst Harr. unfold updateTable. rewrite Hid, Hst, Harr.
  simpl. destruct (String.eqb_spec leagueId ""); [contradiction|]. simpl.
  now destruct (store_frame leagueId rows s) as (_ & _ & ->).
Qed.

(** What an accepted [UPDATE_TABLE] does. *)
Lemma update_accepted (s : State) (p : Payload) (leagueId : string)
    (v : PropValue) (rows : list Row) :
  wf s ->
  obj_get "leagueId" p = Some (PString leagueId) -> leagueId <> "" ->
  obj_get "standings" p = Some v -> as_array v = Some rows ->
  exists s',
    onMessageFromHost localeCompare
      (Some (mkEventData (Some "UPDATE_TABLE") (Some p))) s = Normal s'
    /\ stored s' leagueId = Some rows
    /\ (forall k, k <> leagueId -> stored s' k = stored s k)
    /\ (activeLeagueId s = Some leagueId ->
          renders s' = S (renders s)
          /\ displayed s'
             = number_rows (array_sort (compareRows localeCompare) rows))
    /\ (activeLeagueId s <> Some leagueId ->
          renders s' = renders s /\ table s' = table s
          /\ displayed s' = displayed s
          /\ activeLeagueId s' = activeLeagueId s)
    /\ (domReady s' = domReady s /\ initReceived s' = initReceived s
        /\ pendingPayload s' = pendingPayload s).
Proof.
  intros Hwf Hid Hne Hst Harr.
  exists (match activeLeagueId s with
          | Some act =>
              if String.eqb act leagueId
              then renderLeague localeCompare act (store_standings leagueId rows s)
              else store_standings leagueId rows s
          | None => store_standings leagueId rows s
          end).
  split.
  { rewrite onMessage_update. f_equal.
    apply (updateTable_accepts p leagueId v rows s); assumption. }
  pose proof (store_wf s rows leagueId Hwf) as Hwf1.
  pose proof (store_stored_same leagueId rows s) as Hsame.
  pose proof (fun k => store_stored_other leagueId rows s k Hwf) as Hother.
  pose proof (store_displayed leagueId rows s Hwf) as Hdisp.
  destruct (store_frame leagueId rows s) as (Htab & Htr & Hact).
  assert (Hflags : domReady (store_standings leagueId rows s) = domReady s
                   /\ initReceived (store_standings leagueId rows s) = initReceived s
                   /\ pendingPayload (store_standings leagueId rows s)
                      = pendingPayload s)
    by now rewrite store_standings_eq.
  set (s1 := store_standings leagueId rows s) in *.
  assert (Hr1 : renders s1 = renders s) by (unfold renders; now rewrite Htr).
  destruct (activeLeagueId s) as [act|] eqn:Eact.
  - destruct (String.eqb_spec act leagueId) as [->|Hneq].
    + split; [|split; [|split; [|split]]].
      * now rewrite render_stored.
      * intros k Hk. rewrite render_stored by exact Hwf1. now apply Hother.
      * intros _. rewrite render_renders, Hr1. split; [reflexivity|].
        rewrite render_displayed by exact Hwf1. now rewrite Hsame.
      * intros Hc. now contradiction Hc.
      * now destruct (renderLeague_unfold localeCompare leagueId s1)
          as (h' & data & _ & ->).
    + split; [exact Hsame|]. split; [exact Hother|]. split; [|split].
      * intros [= Hc]. contradiction.
      * intros _. now rewrite Hact.
      * exact Hflags.
  - split; [exact Hsame|]. split; [exact Hother|]. split; [|split].
    + discriminate.
    + intros _. now rewrite Hact.
    + exact Hflags.
Qed.


(** A message without a type, or with a type the handler does not know, is
    ignored. *)
Lemma onMessage_unrecognized data s :
  match data with
  | None => True
  | Some d =>
      match type d with
      | None => True
      | Some ty => ty <> "INIT_WIDGET" /\ ty <> "UPDATE_TABLE"
      end
  end ->
  onMessageFromHost localeCompare data s = Normal s.
Proof.
  destruct data as [[[ty|] payload]|]; try reflexivity. simpl.
  intros [Hi Hu]. unfold onMessageFromHost. simpl.
  destruct (String.eqb ty ""); [reflexivity|]. simpl.
  destruct (String.eqb_spec ty "INIT_WIDGET"); [contradiction|].
  destruct (String.eqb_spec ty "UPDATE_TABLE"); [contradiction|].
  reflexivity.
Qed.

(** An [UPDATE_TABLE] message with no payload, no leagueId or no standings
    array is ignored. *)
Lemma onMessage_update_malformed payload s :
  match payload with
  | None => True
  | Some p =>
      match obj_get "leagueId" p with
      | Some (PString leagueId) => leagueId = ""
      | _ => True
      end
      \/ match obj_get "standings" p with
         | Some v => as_array v = None
         | None => True
         end
  end ->
  onMessageFromHost localeCompare
    (Some (mkEventData (Some "UPDATE_TABLE") payload)) s = Normal s.
Proof.
  rewrite onMessage_update. unfold updateTable.
  destruct payload as [p|]; [|reflexivity].
  destruct (obj_get "leagueId" p) as [[leagueId| | | |]|]; try reflexivity.
  destruct (obj_get "standings" p) as [v|]; [|reflexivity].
  intros [-> | ->]; [reflexivity|].
  now destruct (truthy (Some leagueId)).
Qed.

(** An [INIT_WIDGET] message without payload that arrives before DOM-ready
    is recorded and changes nothing else. *)
Lemma onMessage_init_no_payload_early s :
  domReady s = false ->
  onMessageFromHost localeCompare (initWidget None) s
  = Normal (set_pendingPayload None (set_initReceived true s)).
Proof. intros H. unfold onMessageFromHost. simpl. now rewrite H. Qed.

(** C5, at the failing input: an [INIT_WIDGET] message without payload that
    arrives once the DOM is ready ends in an uncaught [TypeError], raised by
    [processInitPayload] when it reads [payload.leagues]. *)
Theorem initWidget_without_payload_throws (s : State) :
  onMessageFromHost localeCompare (initWidget None) (set_domReady true s)
  = TypeError (set_initReceived true (set_domReady true s)).
Proof. reflexivity. Qed.
(** ** The bootstrap timer *)




End Behaviour.

(** ** The team cell *)

(** C8, amended: a click on the team cell posts exactly one [TEAM_CLICK]
    message, carrying the active league id, the row's equipeName and its
    teamUrl, when the row's teamUrl is a non-empty string; when the row has
    no teamUrl, or an empty one, the click changes nothing. *)
Theorem cellClick_posts (data : Row) (s : State) :
  (exists url,
      teamUrl data = Some url /\ url <> ""%string
      /\ trace (cellClick data s)
         = trace s ++ [PostMessage (mkTeamClick (activeLeagueId s)
                                                (equipeName data) url)]
      /\ posted (cellClick data s)
         = posted s ++ [mkTeamClick (activeLeagueId s) (equipeName data) url])
  \/ ((teamUrl data = None \/ teamUrl data = Some ""%string)
      /\ cellClick data s = s).
Proof.
  unfold cellClick. destruct (teamUrl data) as [url|] eqn:E; simpl.
  - destruct (String.eqb_spec url "") as [->|Hne]; simpl.
    + right. auto.
    + left. exists url. repeat split; auto.
      unfold posted. cbn. now rewrite omap_app.
  - right. auto.
Qed.

(** ** Escaping *)






(** A name that looks like a tag, and a URL that holds a double quote. *)
Example escapeHtml_script :
  escapeHtml "<script>alert('x')</script>"
  = "&lt;script&gt;alert(&#39;x&#39;)&lt;/script&gt;"%string.
Proof. reflexivity. Qed.

Example escapeAttr_quote :
  escapeAttr ("/t" ++ dq ++ " onclick=" ++ dq ++ "x")%string
  = "/t&quot; onclick=&quot;x"%string.
Proof. reflexivity. Qed.

(** ** Concrete runs *)

(** The scenario of two teams level on points: Y, with the larger
    differential, is shown first; the position 7 that Y arrived with is
    still in the store, and is not what is shown. *)
Example scenario_shown :
  displayed scenarioState = [set_position 1 teamY; set_position 2 teamX].
Proof. vm_compute. reflexivity. Qed.

Example scenario_stored :
  stored scenarioState "A" = Some [teamX; teamY].
Proof. vm_compute. reflexivity. Qed.

(** Rows that lack their numbers rank as if they had 0: above a row with
    -1 point, level with a row with 0 points (the name then decides), below
    a row with 1 point. *)
Example missing_numbers_rank_as_zero :
  map equipeName
    (array_sort (compareRows codeUnitCompare)
       [ mkRow (Some "B") None None None None None None None None None None;
         mkRow (Some "C") (Some (-1)%Z) None None None None None None None None None;
         mkRow (Some "A") (Some 0%Z) None None None None None None (Some 0%Z) None None;
         mkRow None None None None None None None None None None None;
         mkRow (Some "D") (Some 1%Z) None None None None None None None None None ])
  = [Some "D"; None; Some "A"; Some "B"; Some "C"]%string.
Proof. vm_compute. reflexivity. Qed.

(** Own keys enumerate indices first, in numeric order. *)
Example Object_keys_order :
  Object_keys (obj_set "1" 4 (obj_set "a" 3 (obj_set "10" 2 (obj_set "b" 1
                 (obj_set "2" 0 [])))))
  = ["1"; "2"; "10"; "b"; "a"]%string.
Proof. vm_compute. reflexivity. Qed.

(** Without a host, the sample is what the timer shows. *)
Example bootstrap_shows_sample :
  map equipeName
      (displayed (run codeUnitCompare [DOMContentLoaded; Timer BootstrapSample] page))
  = [Some "CHAKS"; Some "Kelb United"; Some "Leaf"; Some "Northside";
     Some "Royal Academy"]%string.
Proof. vm_compute. reflexivity. Qed.

(** An [UPDATE_TABLE] that arrives before anything else is stored, and the
    timer then leaves the grid empty. *)
Example update_before_init_suppresses_sample :
  let s := run codeUnitCompare
             [Message (updateTableMsg "A" [teamX]); DOMContentLoaded;
              Timer BootstrapSample] page in
  stored s "A" = Some [teamX] /\ initReceived s = false
  /\ renders s = 0 /\ displayed s = [].
Proof. vm_compute. auto. Qed.

(** A click on X while league A is active. *)
Example scenario_click :
  posted (cellClick teamX scenarioState)
  = [mkTeamClick (Some "A") (Some "X") "/t1"]%string.
Proof. vm_compute. reflexivity. Qed.




Lemma renderLeague_preserves_store_witness :
  wf scenarioState
  /\ (let s' := renderLeague codeUnitCompare "A" scenarioState in
      standingsByLeague s' = standingsByLeague scenarioState
      /\ heap_le (heap scenarioState) (heap s')
      /\ (forall k, stored s' k = stored scenarioState k)
      /\ (forall i r, displayed s' !! i = Some r ->
            position r = Some (Z.of_nat i + 1)%Z)).
Proof.
  split; [exact scenarioState_wf|].
  exact (renderLeague_preserves_store codeUnitCompare scenarioState "A"
           scenarioState_wf).
Defined.




(** C8 as stated fails: the row carries a teamUrl, the empty string, and a
    click on its team cell posts nothing. *)
Lemma cellClick_empty_teamUrl_silent :
  teamUrl teamEmptyUrl = Some ""%string
  /\ posted (cellClick teamEmptyUrl scenarioState) = []
  /\ cellClick teamEmptyUrl scenarioState = scenarioState.
Proof. vm_compute. auto. Qed.

(** An [INIT_WIDGET] whose payload is an object without any property is not
    an error: it empties the leagues and the standings, and renders
    nothing. *)
Example init_empty_payload_resets :
  let s' := state_of (onMessageFromHost codeUnitCompare (initWidget (Some []))
                        scenarioState) in
  leagues s' = [] /\ standingsByLeague s' = []
  /\ renders s' = renders scenarioState.
Proof. vm_compute. auto. Qed.

(** * Further properties of the code *)

(** ** [escapeHtml] and [escapeAttr] as functions on strings *)

Lemma html_entity_cases (c : ascii) :
  (c = "&"%char /\ html_entity c = "&amp;"%string)
  \/ (c = "<"%char /\ html_entity c = "&lt;"%string)
  \/ (c = ">"%char /\ html_entity c = "&gt;"%string)
  \/ (c = dquote /\ html_entity c = "&quot;"%string)
  \/ (c = "'"%char /\ html_entity c = "&#39;"%string)
  \/ (special c = false /\ html_entity c = String c EmptyString).
Proof.
  unfold html_entity, special.
  destruct (Ascii.eqb_spec c "&"%char) as [->|]; [now left|].
  destruct (Ascii.eqb_spec c "<"%char) as [->|]; [now right; left|].
  destruct (Ascii.eqb_spec c ">"%char) as [->|]; [now right; right; left|].
  destruct (Ascii.eqb_spec c dquote) as [->|]; [now right; right; right; left|].
  destruct (Ascii.eqb_spec c "'"%char) as [->|];
    [now right; right; right; right; left|].
  now right; right; right; right; right.
Qed.

Lemma string_length_app (a b : string) :
  String.length (a ++ b)%string = String.length a + String.length b.
Proof. induction a as [|c a IH]; simpl; [reflexivity|]. now rewrite IH. Qed.

Lemma escapeHtml_length (s : string) :
  String.length s <= String.length (escapeHtml s).
Proof.
  induction s as [|c s IH]; simpl; [lia|]. rewrite string_length_app.
  destruct (html_entity_cases c)
    as [[_ ->]|[[_ ->]|[[_ ->]|[[_ ->]|[[_ ->]|[_ ->]]]]]]; simpl; lia.
Qed.

Lemma plain_app (a b : string) : plain (a ++ b)%string = plain a && plain b.
Proof.
  induction a as [|c a IH]; simpl; [reflexivity|].
  now rewrite IH, andb_assoc.
Qed.

Lemma plain_escapeHtml (s : string) : plain (escapeHtml s) = plain s.
Proof.
  induction s as [|c s IH]; simpl; [reflexivity|]. rewrite plain_app, IH.
  f_equal.
  destruct (html_entity_cases c)
    as [[-> ->]|[[-> ->]|[[-> ->]|[[-> ->]|[[-> ->]|[Hc ->]]]]]];
    try reflexivity.
  simpl. now rewrite andb_true_r.
Qed.

Lemma escapeHtml_plain (s : string) : plain s = true -> escapeHtml s = s.
Proof.
  induction s as [|c s IH]; simpl; [reflexivity|].
  intros H. apply andb_true_iff in H as [Hc Hs]. apply negb_true_iff in Hc.
  rewrite (IH Hs).
  destruct (html_entity_cases c)
    as [[-> _]|[[-> _]|[[-> _]|[[-> _]|[[-> _]|[_ ->]]]]]];
    try discriminate Hc.
  reflexivity.
Qed.

Lemma escapeHtml_fixed (s : string) : escapeHtml s = s -> plain s = true.
Proof.
  induction s as [|c s IH]; simpl; [reflexivity|]. intros H.
  pose proof (escapeHtml_length s) as Hlen.
  destruct (html_entity_cases c)
    as [[-> E]|[[-> E]|[[-> E]|[[-> E]|[[-> E]|[Hc E]]]]]];
    rewrite E in H; try (cbn in H; discriminate H).
  - apply (f_equal String.length) in H. rewrite string_length_app in H.
    cbn in H. lia.
  - injection H as H. rewrite Hc. simpl. now apply IH.
Qed.

(** X21: [escapeHtml] maps different strings to different strings. *)
Theorem escapeHtml_injective (s1 s2 : string) :
  escapeHtml s1 = escapeHtml s2 <-> s1 = s2.
Proof.
  split; [|now intros ->].
  revert s2. induction s1 as [|c1 s1 IH]; intros [|c2 s2]; cbn [escapeHtml].
  - reflexivity.
  - destruct (html_entity_cases c2)
      as [[_ ->]|[[_ ->]|[[_ ->]|[[_ ->]|[[_ ->]|[_ ->]]]]]]; discriminate.
  - destruct (html_entity_cases c1)
      as [[_ ->]|[[_ ->]|[[_ ->]|[[_ ->]|[[_ ->]|[_ ->]]]]]]; discriminate.
  - destruct (html_entity_cases c1)
      as [[-> E1]|[[-> E1]|[[-> E1]|[[-> E1]|[[-> E1]|[H1 E1]]]]]];
    destruct (html_entity_cases c2)
      as [[-> E2]|[[-> E2]|[[-> E2]|[[-> E2]|[[-> E2]|[H2 E2]]]]]];
    rewrite ?E1, ?E2; cbn; intros H; try discriminate H;
    try (injection H as H; f_equal; now apply IH);
    try (injection H as Hc H; subst; discriminate);
    try (injection H as Hc H; subst; f_equal; now apply IH).
Qed.

(** X22: [escapeHtml] leaves a string as it is exactly when the string
    holds none of the five characters, and only then does escaping twice
    give the same as escaping once: an escaped name that is escaped again
    changes. *)
Theorem escapeHtml_fixed_points (s : string) :
  (escapeHtml s = s <-> plain s = true)
  /\ (escapeHtml (escapeHtml s) = escapeHtml s <-> plain s = true).
Proof.
  split; split.
  - apply escapeHtml_fixed.
  - apply escapeHtml_plain.
  - intros H. apply escapeHtml_fixed in H. now rewrite plain_escapeHtml in H.
  - intros H. apply escapeHtml_plain. now rewrite plain_escapeHtml.
Qed.

Lemma escapeAttr_length (s : string) :
  String.length s <= String.length (escapeAttr s).
Proof.
  induction s as [|c s IH]; simpl; [lia|]. rewrite string_length_app.
  destruct (Ascii.eqb c dquote); simpl; lia.
Qed.

(** X23: [escapeAttr] leaves a string as it is exactly when the string
    holds no double quote, so the characters ampersand, less-than and
    greater-than pass through; and, the ampersand not being escaped, two
    different URLs can give the same attribute text. *)
Theorem escapeAttr_fixed_points (s : string) :
  (escapeAttr s = s <-> quote_free s = true)
  /\ (exists u1 u2, u1 <> u2 /\ escapeAttr u1 = escapeAttr u2).
Proof.
  split.
  - induction s as [|c s IH]; simpl; [tauto|].
    destruct (Ascii.eqb_spec c dquote) as [->|Hne]; simpl.
    + split; [|discriminate]. intros H. discriminate H.
    + rewrite <- IH. split; [now intros [= H]|now intros ->].
  - exists dq, "&quot;"%string. split; [discriminate|reflexivity].
Qed.

(** ** [debounce] *)

Section DebounceFacts.
Context {Args : Type}.
Implicit Types (d : Debounced Args) (a : Args).

Lemma debounce_inv_initial first : debounce_inv (@debounce Args first).
Proof. split; [now left|discriminate]. Qed.

Lemma debounced_call_spec a d :
  debounce_inv d ->
  debounced_call a d
  = mkDebounced (Some (db_next d)) [(db_next d, a)] (S (db_next d)) (db_invoked d).
Proof.
  intros [[Hp|(i & a0 & Ht & Hp)] _]; unfold debounced_call; rewrite Hp.
  - now destruct (db_t d).
  - rewrite Ht. simpl. now rewrite Nat.eqb_refl.
Qed.

Lemma debounced_call_inv a d : debounce_inv d -> debounce_inv (debounced_call a d).
Proof.
  intros H. rewrite (debounced_call_spec a d H). split; simpl.
  - right. eauto.
  - intros i [= <-]. lia.
Qed.

Lemma timer_due_inv i d : debounce_inv d -> debounce_inv (timer_due i d).
Proof.
  intros [Hp Ht]. unfold timer_due.
  destruct (List.find _ _) as [q|] eqn:E; [|now split].
  split; [left|exact Ht]. simpl.
  destruct Hp as [Hp|(j & a0 & _ & Hp)]; rewrite Hp in *; [discriminate|].
  simpl in *. destruct (Nat.eqb j i); [reflexivity|discriminate].
Qed.

Lemma timer_due_single i a t nx inv :
  timer_due i (mkDebounced t [(i, a)] nx inv) = mkDebounced t [] nx (inv ++ [a]).
Proof. unfold timer_due. simpl. now rewrite Nat.eqb_refl. Qed.

Lemma timer_due_other i j a t nx inv :
  j <> i ->
  timer_due j (mkDebounced t [(i, a)] nx inv) = mkDebounced t [(i, a)] nx inv.
Proof.
  intros H. unfold timer_due. simpl.
  destruct (Nat.eqb_spec i j); [congruence|reflexivity].
Qed.

Lemma debounce_run_inv es d : debounce_inv d -> debounce_inv (debounce_run es d).
Proof.
  revert d. induction es as [|[a|i] es IH]; intros d H; simpl; [exact H| |];
    apply IH; [now apply debounced_call_inv|now apply timer_due_inv].
Qed.

Lemma debounce_calls_invoked (l : list Args) d :
  debounce_inv d ->
  db_invoked (debounce_run (map DbCall l) d) = db_invoked d.
Proof.
  revert d. induction l as [|a l IH]; intros d H; simpl; [reflexivity|].
  rewrite IH by now apply debounced_call_inv.
  now rewrite (debounced_call_spec a d H).
Qed.

(** X20: however the debounced function was used before, after a burst of
    calls exactly one timer is set, holding the arguments of the last call;
    the burst itself does not invoke [fn]; when that timer comes due [fn] is
    invoked once, with those arguments, and no timer is left; any other
    timer id coming due does nothing. *)
Theorem debounce_collapses_burst (first : nat) (es : list (DebounceEvent Args))
    (burst : list Args) (last : Args) :
  let d := debounce_run es (debounce first) in
  let d' := debounce_run (map DbCall (burst ++ [last])) d in
  db_invoked d' = db_invoked d
  /\ exists i,
       db_t d' = Some i /\ db_pending d' = [(i, last)]
       /\ db_invoked (timer_due i d') = db_invoked d ++ [last]
       /\ db_pending (timer_due i d') = []
       /\ (forall j, j <> i -> timer_due j d' = d').
Proof.
  intros d d'.
  assert (Hd : debounce_inv d)
    by apply debounce_run_inv, debounce_inv_initial.
  split; [now apply debounce_calls_invoked|].
  assert (Hb : debounce_inv (debounce_run (map DbCall burst) d))
    by now apply debounce_run_inv.
  assert (E : d' = mkDebounced
                     (Some (db_next (debounce_run (map DbCall burst) d)))
                     [(db_next (debounce_run (map DbCall burst) d), last)]
                     (S (db_next (debounce_run (map DbCall burst) d)))
                     (db_invoked d)).
  { unfold d', debounce_run. rewrite map_app, fold_left_app.
    cbn [map fold_left debounce_step].
    fold (debounce_run (map DbCall burst) d).
    rewrite (debounced_call_spec last _ Hb).
    now rewrite (debounce_calls_invoked burst d Hd). }
  rewrite E. eexists. split; [reflexivity|]. split; [reflexivity|].
  rewrite timer_due_single. repeat split.
  intros j Hj. now apply timer_due_other.
Qed.
End DebounceFacts.

(** ** The lifecycle: what each function leaves alone *)

Section Lifecycle.
Variable localeCompare : string -> string -> Z.

(** [renderLeague] as one record. *)
Lemma renderLeague_eq leagueId s :
  renderLeague localeCompare leagueId s
  = mkState
      (Some (mkTable (match table s with
                      | Some t => tb_layout t
                      | None => getLayout s
                      end)
                     (snd (ranked_copy localeCompare (stored_refs s leagueId)
                                       (heap s)))))
      (match table s with
       | Some _ => currentLayout s
       | None => Some (getLayout s)
       end)
      (Some leagueId) (standingsByLeague s) (leagues s) (domReady s)
      (pendingPayload s) (initReceived s)
      (fst (ranked_copy localeCompare (stored_refs s leagueId) (heap s)))
      (leagueSelect s) (wideViewport s)
      (trace s
       ++ (match table s with
           | Some _ => []
           | None => [ListenResize; ObserveBody]
           end)
       ++ [SetData (snd (ranked_copy localeCompare (stored_refs s leagueId)
                                     (heap s)));
           Redraw]).
Proof.
  destruct (renderLeague_unfold localeCompare leagueId s)
    as (h' & data & Hrc & ->).
  now rewrite Hrc.
Qed.

Lemma same_flags_refl s : same_flags s s.
Proof. now repeat split. Qed.

Lemma same_flags_trans s1 s2 s3 :
  same_flags s1 s2 -> same_flags s2 s3 -> same_flags s1 s3.
Proof. unfold same_flags. intuition congruence. Qed.

(** A render starts from the league it is given, whatever was active. *)
Lemma render_ignores_active leagueId a s :
  renderLeague localeCompare leagueId (set_activeLeagueId a s)
  = renderLeague localeCompare leagueId s.
Proof. now rewrite !renderLeague_eq. Qed.


Lemma select_first first rest :
  select_set_value (id first) (dropdown_of (first :: rest))
  = dropdown_of (first :: rest).
Proof.
  unfold select_set_value, dropdown_of. cbn. now rewrite String.eqb_refl.
Qed.

(** [processInitPayload] on a payload that is there, as one expression. *)
Lemma processInitPayload_eq p s :
  processInitPayload localeCompare (Some p) s
  = Normal
      (match resolved_leagues p with
       | [] => init_store p s
       | first :: _ =>
           emit (SetTimeout (RetryRender (id first)) 60)
             (emit (RequestAnimationFrame (RetryRender (id first)))
                (renderLeague localeCompare (id first) (init_store p s)))
       end).
Proof.
  unfold processInitPayload, init_store, resolved_leagues.
  destruct s as [t cl act sbl lg dr pp ir hp sel wv tr].
  cbn [heap set_leagues].
  destruct (new_standings (payload_standings p) hp) as [h sb] eqn:E.
  apply new_standings_spec in E as (_ & _ & _ & Hk).
  cbn [fst snd leagues set_leagues set_standingsByLeague set_heap
       standingsByLeague table currentLayout activeLeagueId domReady
       pendingPayload initReceived heap leagueSelect wideViewport trace].
  assert (Hkeys : keysToLeagues sb = keysToLeagues (payload_standings p))
    by (unfold keysToLeagues, Object_keys; now rewrite Hk).
  rewrite Hkeys.
  destruct (payload_leagues p) as [|l ls] eqn:El.
  - destruct (keysToLeagues (payload_standings p)) as [|first rest] eqn:Ek.
    + unfold populateLeagueDropdown. cbn. now destruct sel.
    + unfold populateLeagueDropdown, scheduleInitialRender.
      destruct sel as [sel|]; cbn; rewrite render_ignores_active;
        [|reflexivity].
      fold (option_text first).
      change (mkSelect ((id first, option_text first)
                        :: map (fun opt => (id opt, str_or (name opt)
                             (str_or (div opt) (str_or (label opt) (id opt)))))
                               rest) (id first))
        with (dropdown_of (first :: rest)).
      now rewrite select_first.
  - unfold populateLeagueDropdown, scheduleInitialRender.
    destruct sel as [sel|]; cbn; rewrite render_ignores_active;
      [|reflexivity].
    fold (option_text l).
    change (mkSelect ((id l, option_text l)
                      :: map (fun opt => (id opt, str_or (name opt)
                           (str_or (div opt) (str_or (label opt) (id opt)))))
                             ls) (id l))
      with (dropdown_of (l :: ls)).
    now rewrite select_first.
Qed.

(** *** What [processInitPayload] stores *)

Lemma obj_get_keys {V} (o1 o2 : jsobj V) k :
  map fst o1 = map fst o2 ->
  (obj_get k o1 = None <-> obj_get k o2 = None).
Proof.
  revert o2. induction o1 as [|[k1 v1] o1 IH]; intros [|[k2 v2] o2]; simpl;
    try discriminate; [tauto|].
  intros [= -> H]. destruct (String.eqb k2 k); [split; discriminate|].
  now apply IH.
Qed.

Lemma new_standings_lookup m h k :
  wf_heap h ->
  option_map (rows_of (fst (new_standings m h)))
             (obj_get k (snd (new_standings m h)))
  = obj_get k m.
Proof.
  revert h. induction m as [|[k0 rs] m IH]; intros h Hwf; [reflexivity|].
  cbn [new_standings].
  pose proof (new_array_rows rs h) as Hrows.
  pose proof (new_array_wf rs h Hwf) as Hwf1.
  assert (Ha : snd (new_array rs h) < length (arrs (fst (new_array rs h)))).
  { rewrite new_array_spec. simpl. rewrite length_app. simpl. lia. }
  destruct (new_array rs h) as [h1 a]. cbn [fst snd] in *.
  specialize (IH h1 Hwf1).
  destruct (new_standings m h1) as [h2 o] eqn:E. cbn [fst snd] in *.
  apply new_standings_spec in E as (Hle & _ & _ & _).
  cbn [obj_get]. destruct (String.eqb k0 k); [|exact IH].
  cbn. f_equal. rewrite <- Hrows. now apply heap_le_rows_of.
Qed.

Lemma init_store_wf p s : wf s -> wf (init_store p s).
Proof.
  intros [H1 H2 H3]. unfold init_store.
  destruct (new_standings (payload_standings p) (heap s)) as [h sb] eqn:E.
  apply new_standings_spec in E as (Hle & Hh & Hsb & _).
  constructor; cbn; auto.
  destruct (table s); [|exact I]. eapply heap_le_valid; eassumption.
Qed.

Lemma init_store_stored p s k :
  wf s -> stored (init_store p s) k = obj_get k (payload_standings p).
Proof.
  intros Hwf. unfold stored, init_store. cbn.
  rewrite <- (new_standings_lookup (payload_standings p) (heap s) k)
    by apply Hwf.
  now destruct (obj_get k (snd (new_standings _ _))).
Qed.

Lemma init_store_keys p s :
  Object_keys (standingsByLeague (init_store p s))
  = Object_keys (payload_standings p).
Proof.
  unfold init_store, Object_keys. cbn.
  destruct (new_standings (payload_standings p) (heap s)) as [h sb] eqn:E.
  now apply new_standings_spec in E as (_ & _ & _ & Hk).
Qed.

(** The state [processInitPayload] ends in, in both of its cases. *)
Lemma processInitPayload_state p s :
  exists s',
    processInitPayload localeCompare (Some p) s = Normal s'
    /\ leagues s' = payload_leagues p
    /\ standingsByLeague s' = standingsByLeague (init_store p s)
    /\ leagueSelect s' = leagueSelect (init_store p s)
    /\ same_flags s s'
    /\ (wf s -> forall k, stored s' k = obj_get k (payload_standings p)).
Proof.
  rewrite processInitPayload_eq. eexists. split; [reflexivity|].
  destruct (resolved_leagues p) as [|first rest].
  - repeat split; auto. intros Hwf k. now apply init_store_stored.
  - rewrite renderLeague_eq. repeat split; auto.
    intros Hwf k.
    rewrite <- (init_store_stored p s k Hwf).
    rewrite <- (render_stored localeCompare (init_store p s) (id first) k)
      by now apply init_store_wf.
    now rewrite renderLeague_eq.
Qed.






(** *** [fallbackShape] *)






(** *** [populateLeagueDropdown] *)

(** X7: [populateLeagueDropdown] does nothing when the page has no
    selector; otherwise it replaces the options, whatever they were, by one
    option per item, in order, with the item's id as value, and selects the
    first.  The text of an option is the name when there is a non-empty
    one, else the div, else the label, else the id, so it is empty only for
    an item whose id is empty. *)
Theorem populateLeagueDropdown_options (items : list League) (s : State) :
  match leagueSelect s with
  | None => populateLeagueDropdown items s = s
  | Some _ =>
      populateLeagueDropdown items s
      = set_leagueSelect
          (Some (mkSelect (map (fun opt => (id opt, option_text opt)) items)
                          (match items with [] => ""%string | i :: _ => id i end)))
          s
  end
  /\ (forall opt,
        (option_text opt = ""%string -> id opt = ""%string)
        /\ (truthy (name opt) = true -> Some (option_text opt) = name opt)
        /\ (truthy (name opt) = false -> truthy (div opt) = true ->
              Some (option_text opt) = div opt)
        /\ (truthy (name opt) = false -> truthy (div opt) = false ->
              truthy (label opt) = true -> Some (option_text opt) = label opt)
        /\ (truthy (name opt) = false -> truthy (div opt) = false ->
              truthy (label opt) = false -> option_text opt = id opt)).
Proof.
  split.
  - unfold populateLeagueDropdown. now destruct (leagueSelect s).
  - intros [i [n|] [d|] [l|]]; unfold option_text, str_or, truthy; cbn;
      repeat match goal with
             | |- context [String.eqb ?x ""] => destruct (String.eqb_spec x "")
             end; subst; cbn; repeat split; intros; congruence.
Qed.

(** *** The flags of the message protocol *)

Lemma render_flags leagueId s :
  same_flags s (renderLeague localeCompare leagueId s).
Proof. rewrite renderLeague_eq. now repeat split. Qed.

Lemma store_flags leagueId rows s :
  same_flags s (store_standings leagueId rows s).
Proof. rewrite store_standings_eq. now repeat split. Qed.

(** What an [UPDATE_TABLE] branch leaves alone, accepted or not. *)
Lemma updateTable_frame payload s :
  same_flags s (updateTable localeCompare payload s)
  /\ leagues (updateTable localeCompare payload s) = leagues s
  /\ leagueSelect (updateTable localeCompare payload s) = leagueSelect s
  /\ activeLeagueId (updateTable localeCompare payload s) = activeLeagueId s
  /\ wideViewport (updateTable localeCompare payload s) = wideViewport s
  /\ posted (updateTable localeCompare payload s) = posted s.
Proof.
  unfold updateTable.
  destruct payload as [p|]; [|now repeat split].
  destruct (obj_get "leagueId" p) as [[leagueId| | | |]|]; try now repeat split.
  destruct (obj_get "standings" p) as [v|]; [|now repeat split].
  destruct (truthy (Some leagueId)); [|now repeat split].
  destruct (as_array v) as [rows|]; [|now repeat split].
  rewrite store_standings_eq. cbn [activeLeagueId set_standingsByLeague set_heap].
  destruct (activeLeagueId s) as [act|] eqn:Ea; [|now repeat split].
  destruct (String.eqb act leagueId); [|now repeat split].
  rewrite renderLeague_eq. cbn. repeat split; auto.
  unfold posted. cbn. rewrite !omap_app. cbn.
  destruct (table s); cbn; now rewrite ?app_nil_r.
Qed.

Lemma processInitPayload_flags p s :
  same_flags s (state_of (processInitPayload localeCompare (Some p) s)).
Proof.
  destruct (processInitPayload_state p s) as (s' & -> & _ & _ & _ & H & _).
  exact H.
Qed.

Lemma retryRender_flags leagueId s :
  same_flags s (retryRender localeCompare leagueId s).
Proof.
  unfold retryRender. destruct (activeLeagueId s) as [a|];
    [|apply same_flags_refl].
  destruct (String.eqb a leagueId); [apply render_flags|apply same_flags_refl].
Qed.

Lemma onSelectChange_flags v s :
  same_flags s (onSelectChange localeCompare v s).
Proof.
  unfold onSelectChange. destruct (leagueSelect s); [|apply same_flags_refl].
  rewrite renderLeague_eq. now repeat split.
Qed.

Lemma cellClick_flags data s : same_flags s (cellClick data s).
Proof. unfold cellClick. now destruct (truthy (teamUrl data)). Qed.

Lemma onResize_flags s : same_flags s (onResize s).
Proof.
  unfold onResize.
  destruct (table s), (currentLayout s) as [[]|], (getLayout s);
    now repeat split.
Qed.

Lemma onBodyResize_flags s : same_flags s (onBodyResize s).
Proof. unfold onBodyResize. now destruct (table s). Qed.

(** The handler on an [INIT_WIDGET] message, by cases. *)
Lemma onMessage_init payload s :
  onMessageFromHost localeCompare (initWidget payload) s
  = if domReady s
    then processInitPayload localeCompare payload (set_initReceived true s)
    else Normal (set_pendingPayload payload (set_initReceived true s)).
Proof.
  unfold onMessageFromHost, initWidget. cbn.
  destruct (domReady s); cbn; [|reflexivity].
  now destruct (processInitPayload localeCompare payload (set_initReceived true s)).
Qed.

(** The handler on any message either sets [initReceived] (and, before
    DOM-ready, the pending payload) or leaves the flags alone. *)
Lemma onMessage_flags data s :
  let s' := state_of (onMessageFromHost localeCompare data s) in
  same_flags s s'
  \/ (initReceived s' = true /\ domReady s' = domReady s
      /\ (pendingPayload s' = pendingPayload s
          \/ domReady s = false)).
Proof.
  cbv zeta.
  destruct data as [[[ty|] pl]|]; try (left; apply same_flags_refl).
  destruct (String.eqb_spec ty "INIT_WIDGET") as [->|Hi].
  - change (Some (mkEventData (Some "INIT_WIDGET"%string) pl))
      with (initWidget pl).
    rewrite onMessage_init. right.
    destruct (domReady s) eqn:Ed; [|cbn; auto].
    destruct pl as [p|]; [|cbn; auto].
    pose proof (processInitPayload_flags p (set_initReceived true s))
      as (H1 & H2 & H3).
    rewrite H1, H2, H3. cbn. auto.
  - destruct (String.eqb_spec ty "UPDATE_TABLE") as [->|Hu].
    + rewrite onMessage_update. left. apply updateTable_frame.
    + rewrite onMessage_unrecognized by (cbn; auto).
      left. apply same_flags_refl.
Qed.

Lemma onDOMContentLoaded_flags s :
  let s' := state_of (onDOMContentLoaded localeCompare s) in
  domReady s' = true /\ pendingPayload s' = None
  /\ initReceived s' = initReceived s.
Proof.
  cbv zeta. unfold onDOMContentLoaded.
  change (pendingPayload (set_domReady true s)) with (pendingPayload s).
  destruct (pendingPayload s) as [p|] eqn:Ep.
  - pose proof (processInitPayload_flags p (set_domReady true s))
      as (H1 & H2 & H3).
    destruct (processInitPayload_state p (set_domReady true s))
      as (s1 & E & _).
    rewrite E in *. cbn in *. auto.
  - cbn. auto.
Qed.

Lemma bootstrapTimer_flags s :
  same_flags s (state_of (bootstrapTimer localeCompare s)).
Proof.
  unfold bootstrapTimer. destruct (_ && _); [|apply same_flags_refl].
  apply processInitPayload_flags.
Qed.

Lemma same_flags_buffer s s' : same_flags s s' -> buffer_inv s -> buffer_inv s'.
Proof.
  intros (H1 & H2 & H3) [Ha Hb]. unfold buffer_inv.
  rewrite H1, H2, H3. auto.
Qed.

(** What every handler does to the flags. *)
Lemma handle_flags e s :
  let s' := state_of (handle localeCompare e s) in
  (domReady s = true -> domReady s' = true)
  /\ (initReceived s = true -> initReceived s' = true)
  /\ (buffer_inv s -> buffer_inv s').
Proof.
  cbv zeta.
  assert (Hsame : forall s', same_flags s s' ->
            (domReady s = true -> domReady s' = true)
            /\ (initReceived s = true -> initReceived s' = true)
            /\ (buffer_inv s -> buffer_inv s')).
  { intros s' H. split; [|split].
    - destruct H as (-> & _). auto.
    - destruct H as (_ & _ & ->). auto.
    - now apply same_flags_buffer. }
  destruct e as [data| |v|[leagueId|]|data|wide|]; cbn [handle state_of].
  - destruct (onMessage_flags data s) as [H|(Hi & Hd & Hp)];
      [now apply Hsame|].
    split; [now rewrite Hd|]. split; [auto|].
    intros [Ha Hb]. split.
    + rewrite Hd. intros Ht. destruct Hp as [->|Hf]; [auto|congruence].
    + auto.
  - destruct (onDOMContentLoaded_flags s) as (Hd & Hp & Hi).
    split; [auto|]. split; [now rewrite Hi|].
    intros _. split; [auto|]. rewrite Hp. congruence.
  - apply Hsame, onSelectChange_flags.
  - apply Hsame, retryRender_flags.
  - apply Hsame, bootstrapTimer_flags.
  - apply Hsame, cellClick_flags.
  - apply Hsame.
    apply (same_flags_trans s (set_wideViewport wide s));
      [now repeat split|apply onResize_flags].
  - apply Hsame, onBodyResize_flags.
Qed.

Lemma run_flags es s :
  (domReady s = true -> domReady (run localeCompare es s) = true)
  /\ (initReceived s = true -> initReceived (run localeCompare es s) = true)
  /\ (buffer_inv s -> buffer_inv (run localeCompare es s)).
Proof.
  revert s. induction es as [|e es IH]; intros s; cbn [run fold_left];
    [auto|].
  fold (run localeCompare es (state_of (handle localeCompare e s))).
  destruct (handle_flags e s) as (H1 & H2 & H3).
  destruct (IH (state_of (handle localeCompare e s))) as (I1 & I2 & I3).
  auto.
Qed.


(** X12: once an [INIT_WIDGET] has been received, nothing that happens
    afterwards makes the bootstrap timer load the sample: [initReceived]
    stays set through every later event, and the timer callback, whenever
    it runs, does nothing.  [domReady] stays set likewise. *)
Theorem init_received_is_final (s : State) (es : list Event) :
  initReceived s = true ->
  initReceived (run localeCompare es s) = true
  /\ bootstrapTimer localeCompare (run localeCompare es s)
     = Normal (run localeCompare es s)
  /\ (domReady s = true -> domReady (run localeCompare es s) = true).
Proof.
  intros Hi. destruct (run_flags es s) as (H1 & H2 & _).
  split; [auto|]. split; [|exact H1].
  unfold bootstrapTimer. now rewrite (H2 Hi).
Qed.

(** X25: of several [INIT_WIDGET] messages that arrive before DOM-ready
    only the last one counts: the handler ends in the same state as if the
    earlier one had never arrived. *)
Theorem early_inits_last_wins (s : State) (p1 p2 : option Payload) :
  domReady s = false ->
  onMessageFromHost localeCompare (initWidget p2)
    (state_of (onMessageFromHost localeCompare (initWidget p1) s))
  = onMessageFromHost localeCompare (initWidget p2) s.
Proof.
  intros Hd. rewrite !onMessage_init, Hd. cbn. now rewrite Hd.
Qed.

(** X13: the bootstrap callback loads the sample at most once: run a second
    time, it does nothing, because the sample's league is then stored. *)
Theorem bootstrapTimer_once (s : State) :
  let s1 := state_of (bootstrapTimer localeCompare s) in
  bootstrapTimer localeCompare s1 = Normal s1.
Proof.
  cbv zeta.
  destruct (negb (initReceived s)
            && Nat.eqb (length (Object_keys (standingsByLeague s))) 0) eqn:E.
  - assert (Hb : bootstrapTimer localeCompare s
                 = processInitPayload localeCompare (Some SAMPLE_PAYLOAD) s)
      by (unfold bootstrapTimer; now rewrite E).
    rewrite Hb.
    destruct (processInitPayload_state SAMPLE_PAYLOAD s)
      as (s' & -> & _ & Hs & _).
    cbn [state_of]. unfold bootstrapTimer. rewrite Hs, init_store_keys.
    cbn. now rewrite andb_false_r.
  - assert (Hb : bootstrapTimer localeCompare s = Normal s)
      by (unfold bootstrapTimer; now rewrite E).
    rewrite Hb. exact Hb.
Qed.

(** *** An early [INIT_WIDGET] *)

(** The state [processInitPayload] ends in. *)
Lemma processInitPayload_result p s :
  state_of (processInitPayload localeCompare (Some p) s)
  = match resolved_leagues p with
    | [] => init_store p s
    | first :: _ =>
        emit (SetTimeout (RetryRender (id first)) 60)
          (emit (RequestAnimationFrame (RetryRender (id first)))
             (renderLeague localeCompare (id first) (init_store p s)))
    end.
Proof. now rewrite processInitPayload_eq. Qed.



(** *** Updates and the selector *)

(** X14: an [UPDATE_TABLE] message, accepted or not, changes neither the
    league list, nor the selector, nor the active league, nor the flags of
    the message protocol, and posts nothing: a league that only an update
    introduced is stored, but is not offered for selection. *)
Theorem update_leaves_selector (payload : option Payload) (s : State) :
  let s' := state_of (onMessageFromHost localeCompare
                        (Some (mkEventData (Some "UPDATE_TABLE"%string) payload))
                        s) in
  leagues s' = leagues s /\ leagueSelect s' = leagueSelect s
  /\ activeLeagueId s' = activeLeagueId s
  /\ domReady s' = domReady s /\ initReceived s' = initReceived s
  /\ pendingPayload s' = pendingPayload s
  /\ posted s' = posted s.
Proof.
  cbv zeta. rewrite onMessage_update. cbn [state_of].
  destruct (updateTable_frame payload s)
    as ((H1 & H2 & H3) & H4 & H5 & H6 & _ & H8).
  auto 10.
Qed.

Lemma existsb_option_value (sel : Select) v :
  In v (map fst (sel_options sel)) ->
  select_set_value v sel = mkSelect (sel_options sel) v.
Proof.
  intros Hin. unfold select_set_value.
  assert (E : existsb (fun o => String.eqb (fst o) v) (sel_options sel) = true).
  { apply existsb_exists. apply in_map_iff in Hin as (o & <- & Ho).
    exists o. split; [exact Ho|apply String.eqb_refl]. }
  now rewrite E.
Qed.

(** X15: an update for a league that is not the active one leaves the grid
    as it is; the user then selecting that league shows the updated rows,
    ranked. *)
Theorem late_update_shows_on_select (s : State) (p : Payload)
    (leagueId : string) (v : PropValue) (rows : list Row) (sel : Select) :
  wf s ->
  obj_get "leagueId" p = Some (PString leagueId) -> leagueId <> ""%string ->
  obj_get "standings" p = Some v -> as_array v = Some rows ->
  activeLeagueId s <> Some leagueId ->
  leagueSelect s = Some sel -> In leagueId (map fst (sel_options sel)) ->
  let s1 := state_of (onMessageFromHost localeCompare
                        (Some (mkEventData (Some "UPDATE_TABLE"%string) (Some p)))
                        s) in
  let s2 := onSelectChange localeCompare leagueId s1 in
  displayed s1 = displayed s
  /\ activeLeagueId s2 = Some leagueId
  /\ displayed s2
     = number_rows (array_sort (compareRows localeCompare) rows).
Proof.
  intros Hwf Hid Hne Hst Harr Hact Hsel Hin s1 s2.
  destruct (update_accepted localeCompare s p leagueId v rows Hwf Hid Hne Hst Harr)
    as (s' & E & Hstored & _ & _ & Hna & _).
  destruct (Hna Hact) as (_ & _ & Hdisp & _).
  pose proof (onMessageFromHost_wf localeCompare
                (Some (mkEventData (Some "UPDATE_TABLE"%string) (Some p)))
                s Hwf) as Hwf1.
  assert (Hsel1 : leagueSelect s1 = Some sel).
  { unfold s1. rewrite onMessage_update. cbn [state_of].
    destruct (updateTable_frame (Some p) s) as (_ & _ & -> & _). exact Hsel. }
  assert (Es1 : s1 = s') by (unfold s1; now rewrite E).
  fold s1 in Hwf1. split; [now rewrite Es1|].
  unfold s2, onSelectChange. rewrite Hsel1.
  rewrite (existsb_option_value sel leagueId Hin). cbn [sel_value].
  split; [now rewrite renderLeague_eq|].
  rewrite render_displayed by now apply (wf_same s1).
  assert (Hst2 : stored (set_leagueSelect
                           (Some (mkSelect (sel_options sel) leagueId)) s1)
                        leagueId = stored s1 leagueId) by reflexivity.
  now rewrite Hst2, Es1, Hstored.
Qed.

(** *** Rendering *)







(** *** The grid, its layout and its listeners *)

Lemma occurrences_app p s ext s' :
  trace s' = trace s ++ ext ->
  occurrences p s' = occurrences p s + length (List.filter p ext).
Proof.
  intros H. unfold occurrences. now rewrite H, List.filter_app, length_app.
Qed.

(** A step that touches neither the grid, nor the layout, nor the viewport,
    and installs no listener. *)
Lemma table_inv_quiet s s' ext :
  table s' = table s -> currentLayout s' = currentLayout s ->
  wideViewport s' = wideViewport s -> trace s' = trace s ++ ext ->
  List.filter is_ListenResize ext = [] -> List.filter is_ObserveBody ext = [] ->
  table_inv s -> table_inv s'.
Proof.
  intros Ht Hc Hw Htr Hl Ho. unfold table_inv, getLayout.
  rewrite Ht, Hc, Hw, !(occurrences_app _ s ext s' Htr), Hl, Ho. cbn.
  now rewrite !Nat.add_0_r.
Qed.

Lemma emit_table_inv e s :
  is_ListenResize e = false -> is_ObserveBody e = false ->
  table_inv s -> table_inv (emit e s).
Proof.
  intros Hl Ho. apply (table_inv_quiet s (emit e s) [e]); try reflexivity;
    cbn; now rewrite ?Hl, ?Ho.
Qed.

Lemma render_table_inv leagueId s :
  table_inv s -> table_inv (renderLeague localeCompare leagueId s).
Proof.
  rewrite renderLeague_eq. unfold table_inv, occurrences, getLayout. cbn.
  destruct (table s) as [t|].
  - intros (H1 & H2 & H3 & H4). rewrite !List.filter_app, !length_app.
    cbn. rewrite H3, H4. auto.
  - intros (H1 & H2 & H3). rewrite !List.filter_app, !length_app.
    cbn. rewrite H2, H3. auto.
Qed.

Lemma store_table_inv leagueId rows s :
  table_inv s -> table_inv (store_standings leagueId rows s).
Proof.
  rewrite store_standings_eq.
  apply (table_inv_quiet s _ []); try reflexivity. cbn. now rewrite app_nil_r.
Qed.

Lemma updateTable_table_inv payload s :
  table_inv s -> table_inv (updateTable localeCompare payload s).
Proof.
  intros H. unfold updateTable.
  destruct payload as [p|]; [|exact H].
  destruct (obj_get "leagueId" p) as [[leagueId| | | |]|]; try exact H.
  destruct (obj_get "standings" p) as [v|]; [|exact H].
  destruct (truthy (Some leagueId)); [|exact H].
  destruct (as_array v) as [rows|]; [|exact H].
  pose proof (store_table_inv leagueId rows s H) as H1.
  destruct (activeLeagueId (store_standings leagueId rows s)) as [act|];
    [|exact H1].
  destruct (String.eqb act leagueId); [|exact H1]. now apply render_table_inv.
Qed.

Lemma processInitPayload_table_inv payload s :
  table_inv s ->
  table_inv (state_of (processInitPayload localeCompare payload s)).
Proof.
  intros H. destruct payload as [p|]; [|exact H].
  rewrite processInitPayload_result.
  assert (Hi : table_inv (init_store p s)).
  { apply (table_inv_quiet s _ []); try reflexivity; [|exact H].
    cbn. now rewrite app_nil_r. }
  destruct (resolved_leagues p) as [|first rest]; [exact Hi|].
  do 2 (apply emit_table_inv; [reflexivity|reflexivity|]).
  now apply render_table_inv.
Qed.

Lemma onResize_table_inv wide s :
  table_inv s -> table_inv (onResize (set_wideViewport wide s)).
Proof.
  unfold table_inv, onResize, getLayout, occurrences.
  destruct s as [[t|] cl act sb lg dr pp ir h sel wv tr]; cbn.
  - intros (H1 & -> & H3 & H4).
    destruct wide, wv; cbn;
      rewrite ?List.filter_app, ?length_app; cbn; rewrite ?H3, ?H4; auto.
  - now intros (-> & H2 & H3).
Qed.

Lemma handle_table_inv e s :
  table_inv s -> table_inv (state_of (handle localeCompare e s)).
Proof.
  intros H. destruct e as [data| |v|[leagueId|]|data|wide|];
    cbn [handle state_of runTask].
  - destruct data as [[[ty|] pl]|]; try exact H.
    destruct (String.eqb_spec ty "INIT_WIDGET") as [->|Hi].
    + change (Some (mkEventData (Some "INIT_WIDGET"%string) pl))
        with (initWidget pl).
      rewrite onMessage_init.
      assert (H0 : table_inv (set_initReceived true s))
        by (apply (table_inv_quiet s _ []); try reflexivity; [|exact H];
            cbn; now rewrite app_nil_r).
      destruct (domReady s).
      * now apply processInitPayload_table_inv.
      * cbn [state_of].
        apply (table_inv_quiet s _ []); try reflexivity; [|exact H].
        cbn. now rewrite app_nil_r.
    + destruct (String.eqb_spec ty "UPDATE_TABLE") as [->|Hu].
      * rewrite onMessage_update. now apply updateTable_table_inv.
      * now rewrite onMessage_unrecognized by (cbn; auto).
  - assert (H0 : table_inv (set_domReady true s))
      by (apply (table_inv_quiet s _ []); try reflexivity; [|exact H];
          cbn; now rewrite app_nil_r).
    unfold onDOMContentLoaded.
    change (pendingPayload (set_domReady true s)) with (pendingPayload s).
    destruct (pendingPayload s) as [p|].
    + pose proof (processInitPayload_table_inv (Some p) _ H0) as H1.
      destruct (processInitPayload_state p (set_domReady true s))
        as (s1 & E & _).
      rewrite E in *. cbn [state_of andThen] in *.
      apply emit_table_inv; [reflexivity|reflexivity|].
      apply (table_inv_quiet s1 _ []); try reflexivity; [|exact H1].
      cbn. now rewrite app_nil_r.
    + cbn [state_of andThen]. now apply emit_table_inv.
  - unfold onSelectChange. destruct (leagueSelect s) as [sel|]; [|exact H].
    apply render_table_inv.
    apply (table_inv_quiet s _ []); try reflexivity; [|exact H].
    cbn. now rewrite app_nil_r.
  - unfold retryRender. destruct (activeLeagueId s) as [a|]; [|exact H].
    destruct (String.eqb a leagueId); [|exact H]. now apply render_table_inv.
  - unfold bootstrapTimer. destruct (_ && _); [|exact H].
    now apply processInitPayload_table_inv.
  - unfold cellClick. destruct (truthy (teamUrl data)); [|exact H].
    now apply emit_table_inv.
  - now apply onResize_table_inv.
  - unfold onBodyResize. destruct (table s); [|exact H].
    now apply emit_table_inv.
Qed.

Lemma run_table_inv es s : table_inv s -> table_inv (run localeCompare es s).
Proof.
  revert s. induction es as [|e es IH]; intros s H; [exact H|].
  cbn [run fold_left].
  fold (run localeCompare es (state_of (handle localeCompare e s))).
  apply IH. now apply handle_table_inv.
Qed.

Lemma table_inv_initial sel wide : table_inv (initial sel wide).
Proof. now repeat split. Qed.

(** X17: whatever events the page goes through, the resize listener and the
    body observer are installed once each when the grid exists, and not at
    all before: no later render or init installs them a second time.  (The
    browser is taken to have [ResizeObserver], so the [try] succeeds.) *)
Theorem listeners_installed_once (es : list Event) (sel : option Select)
    (wide : bool) :
  let s := run localeCompare es (initial sel wide) in
  occurrences is_ListenResize s
  = match table s with Some _ => 1 | None => 0 end
  /\ occurrences is_ObserveBody s
     = match table s with Some _ => 1 | None => 0 end.
Proof.
  cbv zeta. pose proof (run_table_inv es _ (table_inv_initial sel wide)) as H.
  unfold table_inv in H. destruct (table _); intuition.
Qed.


(** *** Ties *)


(** *** An early [INIT_WIDGET] without payload *)

(** X26: an [INIT_WIDGET] without payload that arrives before DOM-ready
    raises no error, then or later, but leaves the widget empty for good:
    at DOM-ready nothing is processed, and when the bootstrap timer fires
    the sample is not loaded, the init having been received.  All that has
    changed by then is the two flags and the timer that was set. *)
Theorem early_init_without_payload (s : State) :
  domReady s = false ->
  exists s1 s2,
    onMessageFromHost localeCompare (initWidget None) s = Normal s1
    /\ onDOMContentLoaded localeCompare s1 = Normal s2
    /\ bootstrapTimer localeCompare s2 = Normal s2
    /\ s2 = emit (SetTimeout BootstrapSample 250)
              (set_domReady true
                 (set_pendingPayload None (set_initReceived true s))).
Proof.
  intros Hd. rewrite onMessage_init, Hd. eexists. eexists.
  split; [reflexivity|]. split; [reflexivity|]. split; reflexivity.
Qed.
End Lifecycle.

(** *** [onResize] *)


(** ** The further properties at concrete inputs *)

Lemma twoLeagueState_wf : wf twoLeagueState.
Proof. apply run_wf, wf_initial. Qed.









Lemma init_received_is_final_witness :
  initReceived scenarioState = true
  /\ initReceived (run codeUnitCompare
                     [Message (initWidget (Some [])); Timer BootstrapSample]
                     scenarioState) = true
  /\ bootstrapTimer codeUnitCompare
       (run codeUnitCompare
          [Message (initWidget (Some [])); Timer BootstrapSample] scenarioState)
     = Normal (run codeUnitCompare
                 [Message (initWidget (Some [])); Timer BootstrapSample]
                 scenarioState).
Proof.
  assert (H : initReceived scenarioState = true) by (vm_compute; reflexivity).
  split; [exact H|].
  destruct (init_received_is_final codeUnitCompare scenarioState
              [Message (initWidget (Some [])); Timer BootstrapSample] H)
    as (H1 & H2 & _).
  split; [exact H1|exact H2].
Defined.

Lemma late_update_shows_on_select_witness :
  let s1 := state_of (onMessageFromHost codeUnitCompare
                        (updateTableMsg "B" [teamY]) twoLeagueState) in
  let s2 := onSelectChange codeUnitCompare "B" s1 in
  displayed s1 = displayed twoLeagueState
  /\ activeLeagueId s2 = Some "B"%string
  /\ displayed s2
     = number_rows (array_sort (compareRows codeUnitCompare) [teamY]).
Proof.
  apply (late_update_shows_on_select codeUnitCompare twoLeagueState
           [("leagueId", PString "B"); ("standings", PRows [teamY])]%string
           "B" (PRows [teamY]) [teamY]
           (dropdown_of [mkLeague "A" (Some "Division A"%string) None None;
                         mkLeague "B" None None (Some "Second"%string)])
           twoLeagueState_wf).
  - reflexivity.
  - discriminate.
  - reflexivity.
  - reflexivity.
  - vm_compute. discriminate.
  - vm_compute. reflexivity.
  - cbn. auto.
Defined.



Lemma early_inits_last_wins_witness :
  onMessageFromHost codeUnitCompare (initWidget (Some scenarioPayload))
    (state_of (onMessageFromHost codeUnitCompare (initWidget (Some twoLeagues))
                 page))
  = onMessageFromHost codeUnitCompare (initWidget (Some scenarioPayload)) page.
Proof.
  exact (early_inits_last_wins codeUnitCompare page (Some twoLeagues)
           (Some scenarioPayload) eq_refl).
Defined.

Lemma early_init_without_payload_witness :
  exists s1 s2,
    onMessageFromHost codeUnitCompare (initWidget None) page = Normal s1
    /\ onDOMContentLoaded codeUnitCompare s1 = Normal s2
    /\ bootstrapTimer codeUnitCompare s2 = Normal s2
    /\ s2 = emit (SetTimeout BootstrapSample 250)
              (set_domReady true
                 (set_pendingPayload None (set_initReceived true page))).
Proof.
  exact (early_init_without_payload codeUnitCompare page eq_refl).
Defined.
